(** * Study Podcast Player: chunker and narration controller

    A shallow embedding of [app.js], with the properties of the chunker
    [chunkText], of the playback controller ([speakNext], [stopAll],
    [playFromStart], [pause], [resume], [setProgress]) and of the
    default-voice policy of [loadVoices].

    The source holds two revisions of [app.js].  The development follows
    the later one, which prefers Enhanced/Premium/Google voices, guards
    every access to a DOM element and does not speak while the engine is
    paused.  The chunker of the earlier revision is embedded as well and
    shown to compute the same chunks. *)

From Stdlib Require Import String Ascii.
From Stdlib Require Import ZArith NArith List Bool Lia.
From Stdlib Require Import Permutation Sorted.
Import ListNotations.
Open Scope Z_scope.

(** * Part I: the program *)

(** ** JavaScript strings

    A JavaScript string is a sequence of UTF-16 code units. *)

Definition codeunit := N.
Definition jsstring := list codeunit.

(** Code units of an ASCII literal of the source. *)
Definition lit (s : string) : jsstring :=
  map N_of_ascii (list_ascii_of_string s).

(** [s.length] *)
Definition jslength (s : jsstring) : Z := Z.of_nat (length s).

(** Truthiness of a string: the empty string is falsy. *)
Definition truthy (s : jsstring) : bool :=
  match s with [] => false | _ :: _ => true end.

(** Is a list non-empty? *)
Definition truthy_list {A} (l : list A) : bool :=
  match l with [] => false | _ :: _ => true end.

(** ECMAScript [WhiteSpace] and [LineTerminator] code points, the set that
    [String.prototype.trim] strips. *)
Definition is_ws (c : codeunit) : bool :=
  ((9 <=? c) && (c <=? 13) || (c =? 32) || (c =? 160) || (c =? 5760)
   || (8192 <=? c) && (c <=? 8202) || (c =? 8232) || (c =? 8233)
   || (c =? 8239) || (c =? 8287) || (c =? 12288) || (c =? 65279))%N.

(** [s.trimStart()], [s.trimEnd()] and [s.trim()] *)
Fixpoint trimStart (s : jsstring) : jsstring :=
  match s with
  | [] => []
  | c :: t => if is_ws c then trimStart t else s
  end.

Definition trimEnd (s : jsstring) : jsstring := rev (trimStart (rev s)).

Definition trim (s : jsstring) : jsstring := trimEnd (trimStart s).

(** [s.replace(/\r\n/g, "\n")] *)
Fixpoint replace_crlf (s : jsstring) : jsstring :=
  match s with
  | [] => []
  | c :: t =>
      match t with
      | d :: r =>
          if ((c =? 13) && (d =? 10))%N then 10%N :: replace_crlf r
          else c :: replace_crlf t
      | [] => [c]
      end
  end.

(** Relative index of [slice]: a negative index counts from the end, and
    the result is clamped to [0, len]. *)
Definition rel_index (len k : Z) : Z :=
  if k <? 0 then Z.max (len + k) 0 else Z.min k len.

(** [s.slice(a, b)] *)
Definition slice (s : jsstring) (a b : Z) : jsstring :=
  let len := jslength s in
  let from := rel_index len a in
  let to := rel_index len b in
  firstn (Z.to_nat (to - from)) (skipn (Z.to_nat from) s).

(** [s.startsWith(pat)] *)
Fixpoint startsWith (s pat : jsstring) : bool :=
  match pat, s with
  | [], _ => true
  | p :: pat', c :: s' => (c =? p)%N && startsWith s' pat'
  | _ :: _, [] => false
  end.

(** Left-to-right scan for [lastIndexOf]: [k] is the index of the head of
    [s], [acc] the last match seen so far. *)
Fixpoint lastIndexOf_from (s pat : jsstring) (k acc : Z) : Z :=
  let acc' := if startsWith s pat then k else acc in
  match s with
  | [] => acc'
  | _ :: t => lastIndexOf_from t pat (k + 1) acc'
  end.

(** [s.lastIndexOf(pat)]: the largest index at which [pat] occurs, [-1]
    when it does not occur. *)
Definition lastIndexOf (s pat : jsstring) : Z := lastIndexOf_from s pat 0 (-1).

(** The code units of a string that are not white space. *)
Definition visible (s : jsstring) : jsstring :=
  filter (fun c => negb (is_ws c)) s.

(** ** The chunker *)

(** The four patterns searched for: [". "], ["? "], ["! "] and the
    newline. *)
Definition period_space : jsstring := [46; 32]%N.
Definition question_space : jsstring := [63; 32]%N.
Definition bang_space : jsstring := [33; 32]%N.
Definition newline : jsstring := [10]%N.

(** [Math.max] of the four [lastIndexOf] results on the window. *)
Definition lastBreak (window : jsstring) : Z :=
  Z.max (Z.max (Z.max (lastIndexOf window period_space)
                      (lastIndexOf window question_space))
               (lastIndexOf window bang_space))
        (lastIndexOf window newline).

(** [clean] of [chunkText]: line endings unified, then trimmed. *)
Definition clean_text (text : jsstring) : jsstring := trim (replace_crlf text).

(** The proposed end [Math.min(i + maxChars, clean.length)]. *)
Definition proposed_end (clean : jsstring) (maxChars i : Z) : Z :=
  Z.min (i + maxChars) (jslength clean).

(** The value of [end] after the boundary test of one loop iteration. *)
Definition chunk_end (clean : jsstring) (maxChars i : Z) : Z :=
  let end0 := proposed_end clean maxChars i in
  let window := slice clean i end0 in
  let lb := lastBreak window in
  if (end0 <? jslength clean) && (200 <? lb) then i + lb + 1 else end0.

(** The [while (i < clean.length)] loop.  The loop need not terminate (it
    does not for [maxChars <= 0]), so it runs on fuel: [None] means the fuel
    ran out with [i < clean.length] still true. *)
Fixpoint chunk_loop (fuel : nat) (clean : jsstring) (maxChars i : Z)
    (chunks : list jsstring) : option (list jsstring) :=
  if i <? jslength clean then
    match fuel with
    | O => None
    | S fuel' =>
        let e := chunk_end clean maxChars i in
        let part := trim (slice clean i e) in
        chunk_loop fuel' clean maxChars e
          (if truthy part then chunks ++ [part] else chunks)
    end
  else Some chunks.

(** The body of [chunkText], with the fuel of its loop. *)
Definition chunkText_fuel (fuel : nat) (text : jsstring) (maxChars : Z)
    : option (list jsstring) :=
  let clean := clean_text text in
  if negb (truthy clean) then Some []
  else chunk_loop fuel clean maxChars 0 [].

(** [chunkText(text, maxChars)].  One iteration per code unit of the text is
    enough whenever the loop terminates at all (see [chunkText_pieces] and
    [chunkText_fuel_nonpositive]); the result is [None] exactly when the
    source loops forever. *)
Definition chunkText (text : jsstring) (maxChars : Z) : option (list jsstring) :=
  chunkText_fuel (length text) text maxChars.

(** [chunks.join(sep)] *)
Fixpoint join (sep : jsstring) (chunks : list jsstring) : jsstring :=
  match chunks with
  | [] => []
  | [c] => c
  | c :: rest => c ++ sep ++ join sep rest
  end.

(** *** The earlier revision of the chunker

    The first revision of [app.js] pushes every trimmed part and drops the
    empty ones at the end with [chunks.filter(Boolean)]. *)

Fixpoint chunk_loop_rev1 (fuel : nat) (clean : jsstring) (maxChars i : Z)
    (chunks : list jsstring) : option (list jsstring) :=
  if i <? jslength clean then
    match fuel with
    | O => None
    | S fuel' =>
        let e := chunk_end clean maxChars i in
        chunk_loop_rev1 fuel' clean maxChars e
          (chunks ++ [trim (slice clean i e)])
    end
  else Some (filter truthy chunks).

Definition chunkText_rev1 (text : jsstring) (maxChars : Z)
    : option (list jsstring) :=
  let clean := clean_text text in
  if negb (truthy clean) then Some []
  else chunk_loop_rev1 (length text) clean maxChars 0 [].

(** *** Outcomes of a call of [chunkText] *)

(** The error of the specification. *)
Inductive error := InvalidArgument.

(** What a call can do: return, throw, or never return. *)
Inductive outcome :=
| Returned (chunks : list jsstring)
| Threw (e : error)
| NoReturn.

(** The source has no [throw]: a call returns its chunks or never returns. *)
Definition chunkText_outcome (text : jsstring) (maxChars : Z) : outcome :=
  match chunkText text maxChars with
  | Some chunks => Returned chunks
  | None => NoReturn
  end.

(** *** Break points, in the words of the specification *)

(** The candidate patterns. *)
Definition candidates : list jsstring :=
  [period_space; question_space; bang_space; newline].

(** A candidate pattern occurs in the window at index [p]. *)
Definition is_break (window : jsstring) (p : nat) : Prop :=
  exists pat, In pat candidates /\ startsWith (skipn p window) pat = true.

(** [r] is the overall rightmost index of a candidate in the window, or
    [-1] when the window has none. *)
Definition rightmost_break (window : jsstring) (r : Z) : Prop :=
  (r = -1 /\ forall p, ~ is_break window p) \/
  (exists p, r = Z.of_nat p /\ is_break window p /\
             forall q, is_break window q -> (q <= p)%nat).

(** [r] is the last index at which a pattern of [pats] occurs in the
    window, [-1] when none does. *)
Definition last_among (window : jsstring) (pats : list jsstring) (r : Z)
    : Prop :=
  (r = -1 /\
   forall p pat, In pat pats -> startsWith (skipn p window) pat = false)
  \/
  (exists p, r = Z.of_nat p /\
     (exists pat, In pat pats /\ startsWith (skipn p window) pat = true) /\
     forall q pat, In pat pats ->
                   startsWith (skipn q window) pat = true -> (q <= p)%nat).

(** *** The claims on the chunker, as they are stated *)

(** Joining the chunks, with some separator, gives back the clean text. *)
Definition join_reconstructs (text : jsstring) (maxChars : Z) : Prop :=
  exists chunks sep,
    chunkText text maxChars = Some chunks /\ join sep chunks = clean_text text.

(** The chunk is the end of the clean text. *)
Definition ends_text (clean c : jsstring) : Prop := exists pre, clean = pre ++ c.

(** ** Voices and the default-voice policy of [loadVoices] *)

(** A [SpeechSynthesisVoice], with the three attributes the source reads. *)
Record voice := mkVoice {
  name : jsstring;
  lang : jsstring;
  voiceURI : jsstring
}.

(** [toLowerCase] on the letters A-Z.  The source only tests the result with
    [startsWith("en")], and no code unit outside A-Z lower-cases to [e] or
    [n], so leaving the other code units unchanged does not change that test. *)
Definition lower_unit (c : codeunit) : codeunit :=
  if ((65 <=? c) && (c <=? 90))%N then (c + 32)%N else c.

(** [s.toLowerCase()] *)
Definition toLowerCase (s : jsstring) : jsstring := map lower_unit s.

(** [(v.lang || "").toLowerCase().startsWith("en")] *)
Definition is_english (v : voice) : bool :=
  startsWith (toLowerCase (lang v)) (lit "en").

(** [v.lang?.startsWith("en-US")] *)
Definition is_en_US (v : voice) : bool := startsWith (lang v) (lit "en-US").

(** Matching one code unit under the [i] flag of a regular expression
    without the [u] flag: both sides are upper-cased, and a code unit
    outside ASCII never folds onto an ASCII letter. *)
Definition upper_unit (c : codeunit) : codeunit :=
  if ((97 <=? c) && (c <=? 122))%N then (c - 32)%N else c.

(** [pat] matches at the start of [s], letter case ignored. *)
Fixpoint startsWith_ci (s pat : jsstring) : bool :=
  match pat, s with
  | [], _ => true
  | p :: pat', c :: s' => (upper_unit c =? upper_unit p)%N && startsWith_ci s' pat'
  | _ :: _, [] => false
  end.

(** [new RegExp(word, "i").test(s)] for a literal [word]. *)
Fixpoint test_ci (word s : jsstring) : bool :=
  startsWith_ci s word ||
  match s with
  | [] => false
  | _ :: t => test_ci word t
  end.

(** [/Enhanced|Premium|Google/i.test(v.name)] *)
Definition has_marker (v : voice) : bool :=
  test_ci (lit "Enhanced") (name v) || test_ci (lit "Premium") (name v)
  || test_ci (lit "Google") (name v).

Section Sorting.

(** [localeCompare] depends on the locale of the host; it is a parameter
    of the model.  Its result is negative, zero or positive. *)
Variable localeCompare : jsstring -> jsstring -> Z.

(** The comparator handed to [sort]. *)
Definition voice_compare (a b : voice) : Z :=
  let aEn := is_english a in
  let bEn := is_english b in
  if negb (eqb aEn bEn) then (if aEn then -1 else 1)
  else localeCompare (name a) (name b).

(** [Array.prototype.sort] is stable.  For a consistent comparator the
    stable order is unique, so insertion from the right computes it. *)
Fixpoint insert_sorted (x : voice) (l : list voice) : list voice :=
  match l with
  | [] => [x]
  | y :: l' =>
      if voice_compare x y <=? 0 then x :: l
      else y :: insert_sorted x l'
  end.

(** [[...voices].sort(comparator)] *)
Fixpoint sort_voices (l : list voice) : list voice :=
  match l with
  | [] => []
  | x :: l' => insert_sorted x (sort_voices l')
  end.

(** The three [sorted.find(...)] joined by [||]. *)
Definition preferred (sorted : list voice) : option voice :=
  match find (fun v => is_en_US v && has_marker v) sorted with
  | Some v => Some v
  | None =>
      match find is_en_US sorted with
      | Some v => Some v
      | None => find is_english sorted
      end
  end.

(** [a || b] on values that are a string or absent: the first truthy one. *)
Definition or_else (a b : option jsstring) : option jsstring :=
  match a with
  | Some s => if truthy s then Some s else b
  | None => b
  end.

(** [preferred?.voiceURI || sorted[0]?.voiceURI || null] *)
Definition default_voiceURI (available : list voice) : option jsstring :=
  let sorted := sort_voices available in
  or_else (option_map voiceURI (preferred sorted))
          (or_else (option_map voiceURI (hd_error sorted)) None).

End Sorting.

(** *** The order and the policy, in the words of the specification *)

(** A comparator that orders: any two strings compare one way or the
    other, and the order is transitive. *)
Definition consistent (cmp : jsstring -> jsstring -> Z) : Prop :=
  (forall a b, cmp a b <= 0 \/ cmp b a <= 0) /\
  (forall a b c, cmp a b <= 0 -> cmp b c <= 0 -> cmp a c <= 0).

(** "Alphabetically sorted with all English-tagged entries before
    non-English ones": [a] may stand before [b]. *)
Definition english_first (cmp : jsstring -> jsstring -> Z) (a b : voice)
    : Prop :=
  (is_english b = true -> is_english a = true) /\
  (is_english a = is_english b -> cmp (name a) (name b) <= 0).

(** [v] is the first entry of [l] that satisfies [f]. *)
Definition first_such (f : voice -> bool) (l : list voice) (v : voice)
    : Prop :=
  exists l1 l2, l = l1 ++ v :: l2 /\ f v = true /\
                forallb (fun x => negb (f x)) l1 = true.

(** No entry of [l] satisfies [f]. *)
Definition none_such (f : voice -> bool) (l : list voice) : Prop :=
  forallb (fun x => negb (f x)) l = true.

(** [a] may stand before [b] for the comparator of the source. *)
Definition voice_le (localeCompare : jsstring -> jsstring -> Z)
    (a b : voice) : Prop :=
  voice_compare localeCompare a b <= 0.

(** The first tier of the source: [en-US] with one of the three markers. *)
Definition marked_en_US (v : voice) : bool := is_en_US v && has_marker v.

(** The entry that the policy of the source picks from the sorted list. *)
Definition picked (sorted : list voice) (w : voice) : Prop :=
  first_such marked_en_US sorted w \/
  (none_such marked_en_US sorted /\ first_such is_en_US sorted w) \/
  (none_such is_en_US sorted /\ first_such is_english sorted w) \/
  (none_such is_english sorted /\ hd_error sorted = Some w).

(** The policy as the specification words it: the marker is "enhanced" or
    "premium", and the third tier tests the tag as it is written. *)
Definition premium_marker (v : voice) : bool :=
  test_ci (lit "enhanced") (name v) || test_ci (lit "premium") (name v).

Definition starts_en (v : voice) : bool := startsWith (lang v) (lit "en").

Definition stated_policy (localeCompare : jsstring -> jsstring -> Z)
    (available : list voice) (selected : option jsstring) : Prop :=
  match sort_voices localeCompare available with
  | [] => selected = None
  | first :: _ =>
      exists v, In v available /\ selected = Some (voiceURI v) /\
        if existsb (fun x => is_en_US x && premium_marker x) available
        then is_en_US v && premium_marker v = true
        else if existsb is_en_US available then is_en_US v = true
        else if existsb starts_en available then starts_en v = true
        else v = first
  end.

(** A collation for the examples: code units compared one by one. *)
Fixpoint codeunit_compare (a b : jsstring) : Z :=
  match a, b with
  | [], [] => 0
  | [], _ :: _ => -1
  | _ :: _, [] => 1
  | x :: a', y :: b' =>
      if (x <? y)%N then -1
      else if (y <? x)%N then 1
      else codeunit_compare a' b'
  end.

Definition google_voice : voice :=
  mkVoice (lit "Google US English") (lit "en-US") (lit "urn:google").
Definition samantha_voice : voice :=
  mkVoice (lit "Samantha (Enhanced)") (lit "en-US") (lit "urn:samantha").

(** ** The speech engine

    The platform engine [window.speechSynthesis] is an external capability;
    the model keeps what the controller can observe or cause: the two flags
    it reads, the queue of requests it has handed over and that have not
    resolved yet, and whether the head request has reported its start.
    [issued] is a ghost history of the text of every [speak] call. *)

(** A [SpeechSynthesisUtterance].  Its three callbacks only use the
    module-level variables, so they are the same for every request and are
    kept as [onstart], [onend] and [onerror] below. *)
Record utterance := mkUtterance {
  utext : jsstring;
  uvoice : option voice
}.

(** The state of [window.speechSynthesis]. *)
Record synth := mkSynth {
  speaking : bool;
  paused : bool;
  pending : list utterance;
  started : bool;
  issued : list jsstring
}.

(** [speechSynthesis.cancel()]: drops every request; the paused flag is not
    touched. *)
Definition synth_cancel (e : synth) : synth :=
  mkSynth false (paused e) [] false (issued e).

(** [speechSynthesis.speak(u)] *)
Definition synth_speak (u : utterance) (e : synth) : synth :=
  mkSynth true (paused e) (pending e ++ [u]) (started e) (issued e ++ [utext u]).

(** [speechSynthesis.pause()] *)
Definition synth_pause (e : synth) : synth :=
  mkSynth (speaking e) true (pending e) (started e) (issued e).

(** [speechSynthesis.resume()] *)
Definition synth_resume (e : synth) : synth :=
  mkSynth (speaking e) false (pending e) (started e) (issued e).

(** The head request resolves (it ends or fails). *)
Definition synth_resolve (e : synth) : synth :=
  mkSynth (truthy_list (tl (pending e))) (paused e) (tl (pending e)) false (issued e).

(** The head request reports its start. *)
Definition set_started (b : bool) (e : synth) : synth :=
  mkSynth (speaking e) (paused e) (pending e) b (issued e).

(** ** The controller state

    The module-level variables of the source, the three DOM elements the
    controller writes to or reads from ([None] when
    [document.getElementById] found no element, which the source guards
    against), the engine, and the callbacks registered with [setTimeout]
    that have not run yet. *)

(** The messages handed to [setStatus]. *)
Inductive status :=
| Idle            (* "Idle" *)
| Loaded          (* "Loaded podcast.txt" *)
| LoadFailed      (* "Could not load podcast.txt ..." *)
| NothingToPlay   (* "Nothing to play ..." *)
| Queued          (* "Queued" *)
| Playing         (* "Playing" *)
| Paused          (* "Paused" *)
| Stopped         (* "Stopped" *)
| Done            (* "Done" *)
| ErrorSkipping.  (* "TTS error - skipping chunk" *)

(** The callbacks handed to [setTimeout]. *)
Inductive timer :=
| SpeakNextIn (ms : nat)   (* setTimeout(speakNext, ms) *)
| ResumeNudge.             (* the 200 ms check scheduled by resume() *)

(** The state of the page. *)
Record player := mkPlayer {
  voices : list voice;
  queue : list jsstring;
  currentIndex : nat;
  isPlaying : bool;
  selectedVoiceURI : option jsstring;
  statusText : option status;
  progressText : option (nat * nat);   (* the text "a / b" as the pair (a, b) *)
  voiceSelect : option jsstring;       (* value of the select element *)
  engine : synth;
  timers : list timer
}.

(** Assignments to one component of the state. *)
Definition set_voices x p :=
  mkPlayer x (queue p) (currentIndex p) (isPlaying p) (selectedVoiceURI p)
    (statusText p) (progressText p) (voiceSelect p) (engine p) (timers p).
Definition set_queue x p :=
  mkPlayer (voices p) x (currentIndex p) (isPlaying p) (selectedVoiceURI p)
    (statusText p) (progressText p) (voiceSelect p) (engine p) (timers p).
Definition set_currentIndex x p :=
  mkPlayer (voices p) (queue p) x (isPlaying p) (selectedVoiceURI p)
    (statusText p) (progressText p) (voiceSelect p) (engine p) (timers p).
Definition set_isPlaying x p :=
  mkPlayer (voices p) (queue p) (currentIndex p) x (selectedVoiceURI p)
    (statusText p) (progressText p) (voiceSelect p) (engine p) (timers p).
Definition set_selectedVoiceURI x p :=
  mkPlayer (voices p) (queue p) (currentIndex p) (isPlaying p) x
    (statusText p) (progressText p) (voiceSelect p) (engine p) (timers p).
Definition set_statusText x p :=
  mkPlayer (voices p) (queue p) (currentIndex p) (isPlaying p) (selectedVoiceURI p)
    x (progressText p) (voiceSelect p) (engine p) (timers p).
Definition set_progressText x p :=
  mkPlayer (voices p) (queue p) (currentIndex p) (isPlaying p) (selectedVoiceURI p)
    (statusText p) x (voiceSelect p) (engine p) (timers p).
Definition set_voiceSelect x p :=
  mkPlayer (voices p) (queue p) (currentIndex p) (isPlaying p) (selectedVoiceURI p)
    (statusText p) (progressText p) x (engine p) (timers p).
Definition set_engine x p :=
  mkPlayer (voices p) (queue p) (currentIndex p) (isPlaying p) (selectedVoiceURI p)
    (statusText p) (progressText p) (voiceSelect p) x (timers p).
Definition set_timers x p :=
  mkPlayer (voices p) (queue p) (currentIndex p) (isPlaying p) (selectedVoiceURI p)
    (statusText p) (progressText p) (voiceSelect p) (engine p) x.

(** [setTimeout(f, ms)] *)
Definition setTimeout (t : timer) (p : player) : player :=
  set_timers (timers p ++ [t]) p.

(** [setStatus(msg)]: writes the label when the element exists. *)
Definition setStatus (msg : status) (p : player) : player :=
  match statusText p with
  | Some _ => set_statusText (Some msg) p
  | None => p
  end.

(** The pair that [setProgress] renders:
    [Math.min(currentIndex, queue.length)] and [queue.length]. *)
Definition progress (p : player) : nat * nat :=
  (Nat.min (currentIndex p) (length (queue p)), length (queue p)).

(** [setProgress()] *)
Definition setProgress (p : player) : player :=
  match progressText p with
  | Some _ => set_progressText (Some (progress p)) p
  | None => p
  end.

(** [a === b] on strings *)
Definition jsstring_eqb (a b : jsstring) : bool :=
  if list_eq_dec N.eq_dec a b then true else false.

(** [getSelectedVoice()] *)
Definition getSelectedVoice (p : player) : option voice :=
  match or_else (voiceSelect p) (selectedVoiceURI p) with
  | Some uri => find (fun v => jsstring_eqb (voiceURI v) uri) (voices p)
  | None => None
  end.

(** [loadVoices()], with [available] the result of [getVoices()].  The
    select element is refilled in sorted order, so before the assignment of
    the default its value is the first option. *)
Definition loadVoices (localeCompare : jsstring -> jsstring -> Z)
    (available : list voice) (p : player) : player :=
  let p1 := set_voices available p in
  match voiceSelect p1 with
  | None => p1
  | Some _ =>
      let sorted := sort_voices localeCompare available in
      let first :=
        match sorted with [] => [] | v :: _ => voiceURI v end in
      let sel := default_voiceURI localeCompare available in
      let p2 := set_selectedVoiceURI sel (set_voiceSelect (Some first) p1) in
      match sel with
      | Some uri => set_voiceSelect (Some uri) p2
      | None => p2
      end
  end.

(** [stopAll()] *)
Definition stopAll (p : player) : player :=
  setProgress
    (setStatus Stopped
       (set_currentIndex 0%nat
          (set_queue []
             (set_isPlaying false
                (set_engine (synth_cancel (engine p)) p))))).

(** [speakNext()].  The rate of the utterance is a floating-point value read
    from the slider and is left out of the request. *)
Definition speakNext (p : player) : player :=
  if negb (isPlaying p) then p
  else if paused (engine p) then p
  else if (length (queue p) <=? currentIndex p)%nat then
    setProgress (setStatus Done (set_isPlaying false p))
  else
    let utter := mkUtterance (nth (currentIndex p) (queue p) [])
                             (getSelectedVoice p) in
    set_engine (synth_speak utter (engine p)) p.

(** [utter.onstart] *)
Definition onstart (p : player) : player :=
  setProgress (setStatus Playing p).

(** [utter.onend] *)
Definition onend (p : player) : player :=
  setTimeout (SpeakNextIn 60)
    (setProgress (set_currentIndex (currentIndex p + 1)%nat p)).

(** [utter.onerror] *)
Definition onerror (p : player) : player :=
  setTimeout (SpeakNextIn 120)
    (setStatus ErrorSkipping (set_currentIndex (currentIndex p + 1)%nat p)).

(** [playFromStart()], with [text] the value of the text area and
    [maxChars] the chunk size that [parseInt] read, an integer.  [None] when
    [chunkText] does not return. *)
Definition playFromStart (text : jsstring) (maxChars : Z) (p : player)
    : option player :=
  let p1 := set_engine (synth_cancel (engine p)) p in
  match chunkText text maxChars with
  | None => None
  | Some chunks =>
      let p2 := set_currentIndex 0%nat (set_queue chunks p1) in
      if (length (queue p2) =? 0)%nat then
        Some (setProgress (setStatus NothingToPlay (set_isPlaying false p2)))
      else
        Some (speakNext (setProgress (setStatus Queued (set_isPlaying true p2))))
  end.

(** [pause()] *)
Definition pause (p : player) : player :=
  if speaking (engine p) && negb (paused (engine p)) then
    setStatus Paused (set_engine (synth_pause (engine p)) p)
  else p.

(** The callback that [resume()] schedules. *)
Definition resume_nudge (p : player) : player :=
  if isPlaying p && negb (speaking (engine p)) && negb (paused (engine p))
  then speakNext p
  else p.

(** [resume()] *)
Definition resume (p : player) : player :=
  if paused (engine p) then
    setTimeout ResumeNudge
      (setStatus Playing (set_engine (synth_resume (engine p)) p))
  else if isPlaying p && negb (speaking (engine p)) then speakNext p
  else p.

(** ** Runs of the page

    What can happen to the page: the operator presses a button, the engine
    reports on the head request, or a registered timeout fires. *)

(** The events of the page. *)
Inductive event :=
| Play (text : jsstring) (maxChars : Z)
| Pause
| Resume
| Stop
| EngineStart
| EngineEnd
| EngineError
| TimerFires (k : nat).

(** The list without its element at index [k]. *)
Fixpoint remove_nth {A} (k : nat) (l : list A) : list A :=
  match l, k with
  | [], _ => []
  | _ :: t, O => t
  | x :: t, S k' => x :: remove_nth k' t
  end.

(** One event; [None] when the event cannot happen in this state. *)
Definition step (ev : event) (p : player) : option player :=
  match ev with
  | Play text maxChars => playFromStart text maxChars p
  | Pause => Some (pause p)
  | Resume => Some (resume p)
  | Stop => Some (stopAll p)
  | EngineStart =>
      if truthy_list (pending (engine p)) && negb (started (engine p))
         && negb (paused (engine p))
      then Some (onstart (set_engine (set_started true (engine p)) p))
      else None
  | EngineEnd =>
      if truthy_list (pending (engine p)) && started (engine p)
         && negb (paused (engine p))
      then Some (onend (set_engine (synth_resolve (engine p)) p))
      else None
  | EngineError =>
      if truthy_list (pending (engine p))
      then Some (onerror (set_engine (synth_resolve (engine p)) p))
      else None
  | TimerFires k =>
      match nth_error (timers p) k with
      | None => None
      | Some t =>
          let p' := set_timers (remove_nth k (timers p)) p in
          Some (match t with
                | SpeakNextIn _ => speakNext p'
                | ResumeNudge => resume_nudge p'
                end)
      end
  end.

(** A sequence of events, one after the other. *)
Fixpoint run (evs : list event) (p : player) : option player :=
  match evs with
  | [] => Some p
  | ev :: rest =>
      match step ev p with
      | Some p' => run rest p'
      | None => None
      end
  end.

(** The page right after the script has loaded, with every element present
    and no voice available yet. *)
Definition idle_synth : synth := mkSynth false false [] false [].

Definition loaded_page : player :=
  mkPlayer [] [] 0%nat false None (Some Idle) (Some (0%nat, 0%nat)) (Some []) idle_synth [].

(** ** The all-failure session *)

(** The events of an all-failure session: the engine reports the start or
    the failure of the head request, or a timeout fires. *)
Definition failure_event (ev : event) : bool :=
  match ev with
  | EngineStart | EngineError | TimerFires _ => true
  | _ => false
  end.

(** The event is a failure callback. *)
Definition is_error (ev : event) : bool :=
  match ev with EngineError => true | _ => false end.

(** Number of failure callbacks in a run. *)
Definition failures (evs : list event) : nat := length (filter is_error evs).

(** The DOM element exists. *)
Definition present {A} (o : option A) : bool :=
  match o with Some _ => true | None => false end.

(** No engine callback and no timeout can happen any more. *)
Definition at_rest (p : player) : Prop :=
  forall ev, failure_event ev = true -> step ev p = None.

(** The session that started in [p1] from [p0] is over: every segment was
    issued, in order and once, and the controller shows Done. *)
Definition session_done (p0 p1 p : player) : Prop :=
  isPlaying p = false /\
  currentIndex p = length (queue p1) /\
  pending (engine p) = [] /\
  statusText p = (if present (statusText p0) then Some Done else None) /\
  issued (engine p) = issued (engine p0) ++ queue p1.

(** The property of an all-failure session, for the session that
    [playFromStart(text, maxChars)] starts in the state [p0]. *)
Definition all_fail_session (p0 : player) (text : jsstring) (maxChars : Z)
    : Prop :=
  forall p1, playFromStart text maxChars p0 = Some p1 -> queue p1 <> [] ->
    (forall evs p,
        forallb failure_event evs = true -> run evs p1 = Some p ->
        (length (pending (engine p)) <= 1)%nat /\
        (exists k, issued (engine p)
                   = issued (engine p0) ++ firstn k (queue p1)) /\
        (length evs <= 3 * length (queue p1))%nat /\
        (isPlaying p = false -> failures evs = length (queue p1)) /\
        (at_rest p ->
         session_done p0 p1 p /\ failures evs = length (queue p1)))
    /\
    (exists evs p,
        forallb failure_event evs = true /\ run evs p1 = Some p /\
        at_rest p /\
        session_done p0 p1 p /\ failures evs = length (queue p1)).

(** The states of an all-failure session: a request is outstanding, or the
    deferred tick of the last failure is, or the session is over.  [len]
    counts the events so far and [errs] the failures among them. *)
Definition waiting (p0 : player) (q : list jsstring) (len errs : nat)
    (p : player) : Prop :=
  isPlaying p = true /\
  (exists u, pending (engine p) = [u] /\ utext u = nth (currentIndex p) q []) /\
  (currentIndex p < length q)%nat /\
  timers p = [] /\
  issued (engine p) = issued (engine p0) ++ firstn (S (currentIndex p)) q /\
  errs = currentIndex p /\
  (len <= 3 * currentIndex p + (if started (engine p) then 1 else 0))%nat.

(** The request has failed and its deferred tick is registered. *)
Definition ticking (p0 : player) (q : list jsstring) (len errs : nat)
    (p : player) : Prop :=
  isPlaying p = true /\
  pending (engine p) = [] /\
  (exists ms, timers p = [SpeakNextIn ms]) /\
  (currentIndex p <= length q)%nat /\
  issued (engine p) = issued (engine p0) ++ firstn (currentIndex p) q /\
  errs = currentIndex p /\
  (len + 1 <= 3 * currentIndex p)%nat.

(** The tick has found the queue exhausted. *)
Definition finished (p0 : player) (q : list jsstring) (len errs : nat)
    (p : player) : Prop :=
  isPlaying p = false /\
  pending (engine p) = [] /\
  timers p = [] /\
  currentIndex p = length q /\
  issued (engine p) = issued (engine p0) ++ q /\
  errs = length q /\
  (len <= 3 * length q)%nat /\
  statusText p = (if present (statusText p0) then Some Done else None).

(** The invariant of an all-failure session for the queue [q]. *)
Definition session_inv (p0 : player) (q : list jsstring) (len errs : nat)
    (p : player) : Prop :=
  queue p = q /\ paused (engine p) = false /\
  present (statusText p) = present (statusText p0) /\
  (waiting p0 q len errs p \/ ticking p0 q len errs p
   \/ finished p0 q len errs p).

(** The progress label never shows more narrated than there are. *)
Definition label_clamped (p : player) : Prop :=
  match progressText p with
  | Some (a, b) => (a <= b)%nat
  | None => True
  end.

(** ** Concrete states of the page

    The page after its only segment has failed, with the deferred tick of
    that failure still registered; and the page after the operator has
    pressed Play again and the tick has fired. *)
Definition stale_tick_page : player :=
  Eval vm_compute in
    match run [Play (lit "a") 5; EngineError] loaded_page with
    | Some p => p
    | None => loaded_page
    end.

Definition doubled_request_page : player :=
  Eval vm_compute in
    match run [Play (lit "a") 5; TimerFires 0] stale_tick_page with
    | Some p => p
    | None => loaded_page
    end.

(** The page with the engine paused in the middle of a segment, and the
    session that Play starts there. *)
Definition paused_page : player :=
  Eval vm_compute in
    match run [Play (lit "a") 5; EngineStart; Pause] loaded_page with
    | Some p => p
    | None => loaded_page
    end.

Definition paused_session_start : player :=
  Eval vm_compute in
    match playFromStart (lit "a") 5 paused_page with
    | Some p => p
    | None => loaded_page
    end.

(** The page after both segments of a text have been narrated. *)
Definition two_segments_ended : player :=
  Eval vm_compute in
    match run [Play (lit "a. b. c.") 4; EngineStart; EngineEnd;
               TimerFires 0; EngineStart; EngineEnd] loaded_page with
    | Some p => p
    | None => loaded_page
    end.

(** ** Definitions for the further properties *)

(** The string neither starts nor ends with white space. *)
Definition no_edge_space (s : jsstring) : Prop :=
  match s with [] => True | c :: _ => is_ws c = false end /\
  match rev s with [] => True | c :: _ => is_ws c = false end.

(** A segment as the chunker emits it: not empty, and trimmed. *)
Definition good_segment (c : jsstring) : Prop :=
  truthy c = true /\ no_edge_space c.

(** *** A session that the operator leaves alone *)

(** The events that need no operator: the engine reports the start, the end
    or the failure of the head request, or a timeout fires. *)
Definition engine_event (ev : event) : bool :=
  match ev with
  | EngineStart | EngineEnd | EngineError | TimerFires _ => true
  | _ => false
  end.

(** The event resolves a request: it ended or it failed. *)
Definition is_resolution (ev : event) : bool :=
  match ev with EngineEnd | EngineError => true | _ => false end.

(** Number of resolved requests in a run. *)
Definition resolutions (evs : list event) : nat :=
  length (filter is_resolution evs).

(** Nothing can happen without the operator. *)
Definition quiet (p : player) : Prop :=
  forall ev, engine_event ev = true -> step ev p = None.

(** The progress label, when it exists, shows that all [n] segments are
    through. *)
Definition shows_all (p0 p : player) (n : nat) : Prop :=
  progressText p = (if present (progressText p0) then Some (n, n) else None).

(** The invariant of the progress label in a session for [n] segments. *)
Definition label_inv (p0 : player) (n : nat) (p : player) : Prop :=
  present (progressText p) = present (progressText p0) /\
  (isPlaying p = false -> shows_all p0 p n).

(** The session for the two segments of ["a. b. c."], right after Play and
    after both segments have ended and the last tick has fired. *)
Definition two_segments_queued : player :=
  Eval vm_compute in
    match playFromStart (lit "a. b. c.") 4 loaded_page with
    | Some p => p
    | None => loaded_page
    end.

Definition two_segments_done : player :=
  Eval vm_compute in
    match run [EngineStart; EngineEnd; TimerFires 0;
               EngineStart; EngineError; TimerFires 0] two_segments_queued with
    | Some p => p
    | None => loaded_page
    end.

(** *** What the engine is asked to speak *)

(** Every segment of the queue is a good segment, every outstanding request
    is for a segment of the queue, and every text ever handed to [speak]
    was a good segment. *)
Definition requests_sound (p : player) : Prop :=
  Forall good_segment (queue p) /\
  Forall (fun u => In (utext u) (queue p)) (pending (engine p)) /\
  Forall good_segment (issued (engine p)).

(** The operator presses Play. *)
Definition is_play (ev : event) : bool :=
  match ev with Play _ _ => true | _ => false end.

(** The [change] listener of the voice selector, run after the operator has
    picked the option with the value [uri]; without the element there is no
    listener. *)
Definition onVoiceChange (uri : jsstring) (p : player) : player :=
  match voiceSelect p with
  | Some _ => set_selectedVoiceURI (Some uri) (set_voiceSelect (Some uri) p)
  | None => p
  end.

(** The page stopped while a deferred tick is registered, and the same page
    after Resume, the tick and Pause. *)
Definition stopped_page : player :=
  Eval vm_compute in stopAll stale_tick_page.

Definition still_stopped_page : player :=
  Eval vm_compute in
    match run [Resume; TimerFires 0; Pause] stopped_page with
    | Some p => p
    | None => loaded_page
    end.

(** A page that plays ["Hello."] with two voices available. *)
Definition hello_page : player :=
  set_isPlaying true
    (set_queue [lit "Hello."]
       (set_voices [samantha_voice; google_voice] loaded_page)).


(** *** Entries that the comparator does not tell apart *)

(** [v] and [w] may stand in either order for the comparator of the
    source: a sort that is stable keeps such entries in the order in which
    they came. *)
Definition same_rank (localeCompare : jsstring -> jsstring -> Z)
    (v w : voice) : bool :=
  (voice_compare localeCompare v w <=? 0)
  && (voice_compare localeCompare w v <=? 0).

(** The page after Play, a pause in the first segment and a resume: the
    check that [resume()] schedules is registered; and that page after Play
    has been pressed again, the first request has failed, and the check and
    the deferred tick have both fired. *)
Definition resume_check_page : player :=
  Eval vm_compute in
    match run [Play (lit "a. b. c.") 4; EngineStart; Pause; Resume]
              loaded_page with
    | Some p => p
    | None => loaded_page
    end.

Definition doubled_after_check_page : player :=
  Eval vm_compute in
    match run [Play (lit "a. b. c.") 4; EngineError; TimerFires 0;
               TimerFires 0] resume_check_page with
    | Some p => p
    | None => loaded_page
    end.

(** * Part II: properties *)

(** ** String operations *)

Lemma trimStart_split (s : jsstring) :
  exists l, s = l ++ trimStart s /\ forallb is_ws l = true.
Proof.
  induction s as [|c t IH]; simpl.
  - exists []. auto.
  - destruct (is_ws c) eqn:E.
    + destruct IH as [l [H1 H2]]. exists (c :: l). simpl.
      rewrite E, H2. split; [f_equal; exact H1 | reflexivity].
    + exists []. auto.
Qed.

Lemma trim_split (s : jsstring) :
  exists l r, s = l ++ trim s ++ r /\
              forallb is_ws l = true /\ forallb is_ws r = true.
Proof.
  destruct (trimStart_split s) as [l [Hl Wl]].
  destruct (trimStart_split (rev (trimStart s))) as [r [Hr Wr]].
  exists l, (rev r). repeat split; trivial.
  - unfold trim, trimEnd. rewrite <- rev_app_distr, <- Hr, rev_involutive.
    exact Hl.
  - rewrite forallb_forall in *. intros x Hx. apply Wr.
    now apply in_rev.
Qed.

Lemma length_trim (s : jsstring) : (length (trim s) <= length s)%nat.
Proof.
  destruct (trim_split s) as [l [r [H _]]].
  rewrite H at 2. rewrite !length_app. lia.
Qed.

Lemma visible_ws (l : jsstring) : forallb is_ws l = true -> visible l = [].
Proof.
  induction l as [|c t IH]; simpl; trivial.
  intros H. apply andb_true_iff in H. destruct H as [Hc Ht].
  rewrite Hc. simpl. auto.
Qed.

Lemma visible_app (a b : jsstring) : visible (a ++ b) = visible a ++ visible b.
Proof. apply filter_app. Qed.

Lemma visible_trim (s : jsstring) : visible (trim s) = visible s.
Proof.
  destruct (trim_split s) as [l [r [H [Wl Wr]]]].
  rewrite H at 2. rewrite !visible_app, (visible_ws l Wl), (visible_ws r Wr).
  now rewrite app_nil_r.
Qed.

Lemma truthy_false (s : jsstring) : truthy s = false -> s = [].
Proof. destruct s; simpl; congruence. Qed.

(** [slice] inside the string. *)
Lemma slice_inside (s : jsstring) (a b : Z) :
  0 <= a <= b -> b <= jslength s ->
  slice s a b = firstn (Z.to_nat (b - a)) (skipn (Z.to_nat a) s).
Proof.
  intros Ha Hb. unfold slice, rel_index.
  destruct (Z.ltb_spec a 0); [lia|].
  destruct (Z.ltb_spec b 0); [lia|].
  rewrite !Z.min_l by lia. reflexivity.
Qed.

Lemma length_slice_inside (s : jsstring) (a b : Z) :
  0 <= a <= b -> b <= jslength s -> jslength (slice s a b) = b - a.
Proof.
  intros Ha Hb. rewrite slice_inside by assumption.
  unfold jslength in *. rewrite length_firstn, length_skipn. lia.
Qed.

Lemma slice_skipn (s : jsstring) (a b : Z) :
  0 <= a <= b -> b <= jslength s ->
  slice s a b ++ skipn (Z.to_nat b) s = skipn (Z.to_nat a) s.
Proof.
  intros Ha Hb. rewrite slice_inside by assumption.
  replace (Z.to_nat b) with (Z.to_nat (b - a) + Z.to_nat a)%nat by lia.
  rewrite <- skipn_skipn. apply firstn_skipn.
Qed.

Lemma length_slice (s : jsstring) (a b : Z) :
  jslength (slice s a b)
  <= Z.max 0 (rel_index (jslength s) b - rel_index (jslength s) a).
Proof.
  unfold slice, jslength. rewrite length_firstn. lia.
Qed.

(** ** [lastIndexOf] *)

Lemma startsWith_length (s pat : jsstring) :
  startsWith s pat = true -> (length pat <= length s)%nat.
Proof.
  revert s. induction pat as [|p pat IH]; intros s H; simpl in *; [lia|].
  destruct s as [|c s]; [discriminate|].
  apply andb_true_iff in H. destruct H as [_ H]. apply IH in H. simpl. lia.
Qed.

(** The scan returns the accumulator when the pattern does not occur, and
    otherwise the offset of the last position where it occurs. *)
Lemma lastIndexOf_from_spec (pat s : jsstring) (k acc : Z) :
  (lastIndexOf_from s pat k acc = acc /\
   forall j, startsWith (skipn j s) pat = true -> (length s < j)%nat)
  \/
  (exists j, (j <= length s)%nat /\
             lastIndexOf_from s pat k acc = k + Z.of_nat j /\
             startsWith (skipn j s) pat = true /\
             forall j', startsWith (skipn j' s) pat = true ->
                        (j' <= length s)%nat -> (j' <= j)%nat).
Proof.
  revert k acc. induction s as [|c t IH]; intros k acc.
  - cbn [lastIndexOf_from]. destruct (startsWith [] pat) eqn:E.
    + right. exists 0%nat. simpl. repeat split; try lia; trivial.
    + left. split; trivial. intros j Hj.
      rewrite skipn_nil in Hj. congruence.
  - cbn [lastIndexOf_from].
    destruct (IH (k + 1) (if startsWith (c :: t) pat then k else acc))
      as [[Hr Hno] | [j [Hj [Hr [Hocc Hmax]]]]].
    + destruct (startsWith (c :: t) pat) eqn:E.
      * right. exists 0%nat. simpl. repeat split; try lia; trivial.
        intros j' Hj' Hle. destruct j' as [|j']; [lia|].
        cbn [skipn] in Hj'. apply Hno in Hj'. lia.
      * left. split; trivial. intros j Hj.
        destruct j as [|j]; cbn [skipn] in Hj; [congruence|].
        apply Hno in Hj. simpl. lia.
    + right. exists (S j). cbn [skipn length]. repeat split; try lia; trivial.
      intros j' Hj' Hle. destruct j' as [|j']; [lia|].
      cbn [skipn] in Hj'. apply Hmax in Hj'; lia.
Qed.

Lemma startsWith_skipn_lt (s pat : jsstring) (j : nat) :
  pat <> [] -> startsWith (skipn j s) pat = true -> (j < length s)%nat.
Proof.
  intros Hp H. apply startsWith_length in H.
  rewrite length_skipn in H. destruct pat; [congruence|]. simpl in H. lia.
Qed.

(** [lastIndexOf] of a non-empty pattern: [-1] when there is no occurrence,
    otherwise the last occurrence. *)
Lemma lastIndexOf_spec (s pat : jsstring) :
  pat <> [] ->
  (lastIndexOf s pat = -1 /\ forall j, startsWith (skipn j s) pat = false)
  \/
  (exists j, lastIndexOf s pat = Z.of_nat j /\
             startsWith (skipn j s) pat = true /\
             forall j', startsWith (skipn j' s) pat = true -> (j' <= j)%nat).
Proof.
  intros Hp. unfold lastIndexOf.
  destruct (lastIndexOf_from_spec pat s 0 (-1))
    as [[Hr Hno] | [j [Hj [Hr [Hocc Hmax]]]]].
  - left. split; trivial. intros j.
    destruct (startsWith (skipn j s) pat) eqn:E; trivial.
    pose proof (startsWith_skipn_lt _ _ _ Hp E). apply Hno in E. lia.
  - right. exists j. repeat split; trivial.
    intros j' Hj'. apply Hmax; trivial.
    pose proof (startsWith_skipn_lt _ _ _ Hp Hj'). lia.
Qed.

Lemma lastIndexOf_range (s pat : jsstring) :
  pat <> [] -> -1 <= lastIndexOf s pat < jslength s.
Proof.
  intros Hp. destruct (lastIndexOf_spec s pat Hp) as [[H _] | [j [H [Ho _]]]].
  - unfold jslength. lia.
  - apply (startsWith_skipn_lt _ _ _ Hp) in Ho. unfold jslength. lia.
Qed.

Lemma lastBreak_range (window : jsstring) :
  -1 <= lastBreak window < jslength window.
Proof.
  unfold lastBreak.
  assert (H1 := lastIndexOf_range window period_space).
  assert (H2 := lastIndexOf_range window question_space).
  assert (H3 := lastIndexOf_range window bang_space).
  assert (H4 := lastIndexOf_range window newline).
  unfold period_space, question_space, bang_space, newline in *.
  specialize (H1 ltac:(discriminate)). specialize (H2 ltac:(discriminate)).
  specialize (H3 ltac:(discriminate)). specialize (H4 ltac:(discriminate)).
  lia.
Qed.

(** ** One iteration of the loop *)

Lemma proposed_end_bounds (clean : jsstring) (maxChars i : Z) :
  0 < maxChars -> 0 <= i < jslength clean ->
  i < proposed_end clean maxChars i <= jslength clean /\
  proposed_end clean maxChars i - i <= maxChars.
Proof. unfold proposed_end. lia. Qed.

(** With a positive [maxChars] the new [end] is past [i], inside the text
    and at most [maxChars] away. *)
Lemma chunk_end_bounds (clean : jsstring) (maxChars i : Z) :
  0 < maxChars -> 0 <= i < jslength clean ->
  i < chunk_end clean maxChars i <= jslength clean /\
  chunk_end clean maxChars i - i <= maxChars.
Proof.
  intros Hm Hi. unfold chunk_end.
  destruct (proposed_end_bounds clean maxChars i Hm Hi) as [He Hd].
  set (e0 := proposed_end clean maxChars i) in *.
  pose proof (lastBreak_range (slice clean i e0)) as Hlb.
  rewrite length_slice_inside in Hlb by lia.
  destruct (Z.ltb_spec e0 (jslength clean)); simpl; [|lia].
  destruct (Z.ltb_spec 200 (lastBreak (slice clean i e0))); lia.
Qed.

Lemma length_replace_crlf (s : jsstring) :
  (length (replace_crlf s) <= length s)%nat.
Proof.
  assert (H : forall n s, (length s <= n)%nat ->
                          (length (replace_crlf s) <= length s)%nat).
  { clear s. induction n as [|n IH]; intros s Hn.
    - destruct s; simpl in *; lia.
    - destruct s as [|c [|d r]]; simpl in *; try lia.
      destruct ((c =? 13)%N && (d =? 10)%N).
      + simpl. specialize (IH r). lia.
      + specialize (IH (d :: r)). simpl in *. lia. }
  apply (H (length s)). lia.
Qed.

Lemma length_clean_text (text : jsstring) :
  (length (clean_text text) <= length text)%nat.
Proof.
  unfold clean_text. pose proof (length_trim (replace_crlf text)).
  pose proof (length_replace_crlf text). lia.
Qed.

(** ** The loop with a positive [maxChars]

    The loop cuts the rest of the text into consecutive pieces and keeps the
    non-empty trims of the pieces. *)
Lemma chunk_loop_pieces (fuel : nat) (clean : jsstring) (maxChars : Z) :
  0 < maxChars ->
  forall (i : Z) (acc : list jsstring),
    0 <= i <= jslength clean -> jslength clean - i <= Z.of_nat fuel ->
    exists pieces,
      chunk_loop fuel clean maxChars i acc
        = Some (acc ++ filter truthy (map trim pieces)) /\
      concat pieces = skipn (Z.to_nat i) clean /\
      Forall (fun pc => jslength pc <= maxChars) pieces.
Proof.
  intros Hm. induction fuel as [|fuel IH]; intros i acc Hi Hf.
  - exists []. simpl. destruct (Z.ltb_spec i (jslength clean)); [lia|].
    rewrite app_nil_r. repeat split; trivial.
    rewrite skipn_all2; trivial. unfold jslength in *. lia.
  - cbn [chunk_loop]. destruct (Z.ltb_spec i (jslength clean)) as [Hlt|Hge].
    + destruct (chunk_end_bounds clean maxChars i Hm ltac:(lia)) as [He Hd].
      set (e := chunk_end clean maxChars i) in *.
      destruct (IH e (if truthy (trim (slice clean i e))
                      then acc ++ [trim (slice clean i e)] else acc)
                  ltac:(lia) ltac:(lia)) as [ps [Hrun [Hcat Hlen]]].
      exists (slice clean i e :: ps). split; [|split].
      * rewrite Hrun. cbn [map filter].
        destruct (truthy (trim (slice clean i e))); trivial.
        now rewrite <- app_assoc.
      * cbn [concat]. rewrite Hcat. apply slice_skipn; lia.
      * constructor; trivial. rewrite length_slice_inside; lia.
    + exists []. rewrite app_nil_r. repeat split; trivial.
      simpl. rewrite skipn_all2; trivial. unfold jslength in *. lia.
Qed.

(** [chunkText] returns for every positive [maxChars]. *)
Lemma chunkText_pieces (text : jsstring) (maxChars : Z) :
  0 < maxChars ->
  exists pieces,
    chunkText text maxChars = Some (filter truthy (map trim pieces)) /\
    concat pieces = clean_text text /\
    Forall (fun pc => jslength pc <= maxChars) pieces.
Proof.
  intros Hm. unfold chunkText, chunkText_fuel.
  destruct (truthy (clean_text text)) eqn:E; simpl.
  - pose proof (length_clean_text text) as Hl.
    destruct (chunk_loop_pieces (length text) (clean_text text) maxChars Hm 0 [])
      as [ps [Hrun [Hcat Hlen]]]; unfold jslength; try lia.
    exists ps. auto.
  - exists []. apply truthy_false in E. rewrite E. simpl. auto.
Qed.

Lemma visible_kept_pieces (pieces : list jsstring) :
  visible (concat (filter truthy (map trim pieces))) = visible (concat pieces).
Proof.
  induction pieces as [|pc ps IH]; simpl; trivial.
  rewrite visible_app, <- IH, <- (visible_trim pc).
  destruct (truthy (trim pc)) eqn:E; simpl.
  - now rewrite visible_app.
  - apply truthy_false in E. now rewrite E.
Qed.

Lemma kept_pieces_bounded (maxChars : Z) (pieces : list jsstring) :
  Forall (fun pc => jslength pc <= maxChars) pieces ->
  Forall (fun c => jslength c <= maxChars) (filter truthy (map trim pieces)).
Proof.
  induction 1 as [|pc ps Hpc _ IH]; simpl; [constructor|].
  destruct (truthy (trim pc)); trivial. constructor; trivial.
  pose proof (length_trim pc). unfold jslength in *. lia.
Qed.

Lemma chunks_bounded (text : jsstring) (maxChars : Z) (chunks : list jsstring) :
  0 < maxChars -> chunkText text maxChars = Some chunks ->
  Forall (fun c => jslength c <= maxChars) chunks.
Proof.
  intros Hm H. destruct (chunkText_pieces text maxChars Hm) as [ps [Hr [_ Hl]]].
  rewrite Hr in H. injection H as <-. now apply kept_pieces_bounded.
Qed.

(** ** The loop with [maxChars <= 0]

    The cursor never reaches the end of the text: a proposed end is not past
    the cursor, and a break point is only found in a window that stops
    before the end of the text. *)
Lemma chunk_end_stuck (clean : jsstring) (maxChars i : Z) :
  maxChars <= 0 -> i < jslength clean ->
  chunk_end clean maxChars i < jslength clean.
Proof.
  intros Hm Hi. unfold chunk_end.
  set (e0 := proposed_end clean maxChars i).
  assert (He0 : e0 <= i) by (unfold e0, proposed_end; lia).
  pose proof (lastBreak_range (slice clean i e0)) as Hlb.
  pose proof (length_slice clean i e0) as Hsl.
  destruct (Z.ltb_spec e0 (jslength clean)); [|lia]. simpl.
  destruct (Z.ltb_spec 200 (lastBreak (slice clean i e0))); [|lia].
  unfold rel_index in Hsl.
  destruct (Z.ltb_spec e0 0), (Z.ltb_spec i 0); lia.
Qed.

Lemma chunk_loop_diverges (clean : jsstring) (maxChars : Z) :
  maxChars <= 0 ->
  forall (fuel : nat) (i : Z) (chunks : list jsstring),
    i < jslength clean -> chunk_loop fuel clean maxChars i chunks = None.
Proof.
  intros Hm. induction fuel as [|fuel IH]; intros i chunks Hi; simpl;
    destruct (Z.ltb_spec i (jslength clean)); try lia; trivial.
  apply IH. now apply chunk_end_stuck.
Qed.

Lemma chunkText_fuel_nonpositive (fuel : nat) (text : jsstring) (maxChars : Z) :
  maxChars <= 0 ->
  chunkText_fuel fuel text maxChars
  = if truthy (clean_text text) then None else Some [].
Proof.
  intros Hm. unfold chunkText_fuel.
  destruct (clean_text text) as [|c t] eqn:E; simpl; trivial.
  apply chunk_loop_diverges; trivial. unfold jslength. simpl. lia.
Qed.

Lemma chunk_loop_rev1_same (clean : jsstring) (maxChars : Z) (fuel : nat) :
  forall (i : Z) (chunks : list jsstring),
    chunk_loop_rev1 fuel clean maxChars i chunks
    = chunk_loop fuel clean maxChars i (filter truthy chunks).
Proof.
  induction fuel as [|fuel IH]; intros i chunks; simpl;
    destruct (i <? jslength clean); trivial.
  rewrite IH, filter_app. cbn [filter].
  destruct (truthy (trim (slice clean i (chunk_end clean maxChars i))));
    now rewrite ?app_nil_r.
Qed.

(** Both revisions of [chunkText] compute the same chunks. *)
Lemma chunkText_rev1_same (text : jsstring) (maxChars : Z) :
  chunkText_rev1 text maxChars = chunkText text maxChars.
Proof.
  unfold chunkText_rev1, chunkText, chunkText_fuel.
  destruct (truthy (clean_text text)); simpl; trivial.
  apply chunk_loop_rev1_same.
Qed.

(** ** The break point of a window *)

Section Window.

Variable window : jsstring.

Lemma last_among_single (pat : jsstring) :
  pat <> [] -> last_among window [pat] (lastIndexOf window pat).
Proof.
  intros Hp. destruct (lastIndexOf_spec window pat Hp)
    as [[Hr Hno] | [j [Hr [Ho Hmax]]]].
  - left. split; trivial. intros p pat' [<-|[]]. apply Hno.
  - right. exists j. repeat split; trivial.
    + exists pat. simpl. auto.
    + intros q pat' [<-|[]]. apply Hmax.
Qed.

Lemma last_among_max (pats1 pats2 : list jsstring) (r1 r2 : Z) :
  last_among window pats1 r1 -> last_among window pats2 r2 ->
  last_among window (pats1 ++ pats2) (Z.max r1 r2).
Proof.
  intros [[E1 N1] | [p1 [E1 [[a1 [I1 O1]] M1]]]]
         [[E2 N2] | [p2 [E2 [[a2 [I2 O2]] M2]]]].
  - left. split; [lia|]. intros p pat Hin.
    apply in_app_or in Hin. destruct Hin; auto.
  - right. exists p2. repeat split; [lia| |].
    + exists a2. split; trivial. apply in_or_app. auto.
    + intros q pat Hin Ho. apply in_app_or in Hin. destruct Hin as [Hin|Hin].
      * rewrite (N1 q pat Hin) in Ho. discriminate.
      * eapply M2; eauto.
  - right. exists p1. repeat split; [lia| |].
    + exists a1. split; trivial. apply in_or_app. auto.
    + intros q pat Hin Ho. apply in_app_or in Hin. destruct Hin as [Hin|Hin].
      * eapply M1; eauto.
      * rewrite (N2 q pat Hin) in Ho. discriminate.
  - right. exists (Nat.max p1 p2). repeat split; [lia| |].
    + destruct (Nat.max_spec p1 p2) as [[_ ->] | [_ ->]].
      * exists a2. split; trivial. apply in_or_app. auto.
      * exists a1. split; trivial. apply in_or_app. auto.
    + intros q pat Hin Ho. apply in_app_or in Hin. destruct Hin as [Hin|Hin].
      * specialize (M1 q pat Hin Ho). lia.
      * specialize (M2 q pat Hin Ho). lia.
Qed.

Lemma lastBreak_last_among : last_among window candidates (lastBreak window).
Proof.
  unfold lastBreak.
  change candidates
    with ((([period_space] ++ [question_space]) ++ [bang_space]) ++ [newline]).
  repeat apply last_among_max; apply last_among_single; discriminate.
Qed.

Lemma lastBreak_rightmost : rightmost_break window (lastBreak window).
Proof.
  destruct lastBreak_last_among as [[E N] | [p [E [[a [I O]] M]]]].
  - left. split; trivial. intros p [pat [Hin Ho]].
    rewrite (N p pat Hin) in Ho. discriminate.
  - right. exists p. repeat split; trivial.
    + exists a. auto.
    + intros q [pat [Hin Ho]]. eapply M; eauto.
Qed.

(** The rightmost break is past index 200 exactly when some break is. *)
Lemma lastBreak_past_floor :
  200 < lastBreak window <-> exists p, is_break window p /\ (200 < p)%nat.
Proof.
  destruct lastBreak_rightmost as [[E N] | [p [E [B M]]]]; split.
  - lia.
  - intros [p [B _]]. now apply N in B.
  - intros H. exists p. split; trivial. lia.
  - intros [q [Bq Hq]]. apply M in Bq. lia.
Qed.

End Window.

(** ** Examples of chunking *)

(** A text shorter than the floor of 200 is cut at [maxChars], wherever
    that falls. *)
Example chunk_short_text :
  chunkText (lit "One sentence here. Another one follows. ") 25
  = Some [lit "One sentence here. Anothe"; lit "r one follows."].
Proof. vm_compute. reflexivity. Qed.

(** A sentence end past index 200 of the window moves the cut. *)
Example chunk_at_sentence_end :
  chunkText (repeat 97%N 210 ++ lit ". " ++ repeat 98%N 100) 250
  = Some [repeat 97%N 210 ++ lit "."; repeat 98%N 100].
Proof. vm_compute. reflexivity. Qed.

(** ** The controller: projections of updated states *)

Lemma firstn_S_nth (q : list jsstring) (k : nat) :
  (k < length q)%nat -> firstn (S k) q = firstn k q ++ [nth k q []].
Proof.
  revert k. induction q as [|x q IH]; intros k Hk; simpl in *; [lia|].
  destruct k as [|k]; simpl; trivial. rewrite <- IH by lia. reflexivity.
Qed.

Lemma setStatus_eq (msg : status) (p : player) :
  setStatus msg p
  = set_statusText (if present (statusText p) then Some msg else None) p.
Proof. destruct p as [? ? ? ? ? [s|] ? ? ? ?]; reflexivity. Qed.

Lemma setProgress_eq (p : player) :
  setProgress p
  = set_progressText
      (if present (progressText p) then Some (progress p) else None) p.
Proof. destruct p as [? ? ? ? ? ? [s|] ? ? ?]; reflexivity. Qed.

(** Projections of updated records. *)
Ltac fields :=
  rewrite ?setStatus_eq, ?setProgress_eq;
  cbn [voices queue currentIndex isPlaying selectedVoiceURI statusText
       progressText voiceSelect engine timers
       set_voices set_queue set_currentIndex set_isPlaying
       set_selectedVoiceURI set_statusText set_progressText set_voiceSelect
       set_engine set_timers setTimeout
       speaking paused pending started issued
       synth_cancel synth_speak synth_pause synth_resume synth_resolve
       set_started utext uvoice].

Lemma present_if {A} (o : option status) (x : A) :
  present (if present o then Some x else None) = present o.
Proof. now destruct o. Qed.

(** ** The all-failure session *)

Lemma session_step (p0 : player) (q : list jsstring) (len errs : nat)
    (ev : event) (p p' : player) :
  session_inv p0 q len errs p -> failure_event ev = true ->
  step ev p = Some p' ->
  session_inv p0 q (S len) (errs + (if is_error ev then 1 else 0)) p'.
Proof.
  intros (Hq & Hpa & Hpr & Hphase) Hev Hstep.
  destruct Hphase as [W | [T | D]].
  - destruct W as (Hpl & (u & Hpe & Hu) & Hci & Htm & Hiss & Herr & Hlen).
    destruct ev; try discriminate; cbn [step] in Hstep; cbn [is_error];
      rewrite ?Hpe, ?Hpa, ?Htm in Hstep; cbn in Hstep.
    + destruct (started (engine p)) eqn:Est; [discriminate|].
      injection Hstep as <-. unfold onstart.
      split; [|split; [|split]]; fields; rewrite ?present_if; trivial.
      left. unfold waiting. fields. repeat split; eauto; lia.
    + injection Hstep as <-. unfold onerror.
      split; [|split; [|split]]; fields; rewrite ?present_if; trivial.
      right; left. unfold ticking. fields. rewrite Hpe, Htm. cbn [tl app].
      repeat split; eauto; try lia.
      * rewrite Hiss. f_equal. f_equal. lia.
      * destruct (started (engine p)); lia.
    + destruct k; discriminate.
  - destruct T as (Hpl & Hpe & (ms & Htm) & Hci & Hiss & Herr & Hlen).
    destruct ev; try discriminate; cbn [step] in Hstep; cbn [is_error];
      rewrite ?Hpe, ?Hpa, ?Htm in Hstep; cbn in Hstep; try discriminate.
    destruct k as [|k]; cbn in Hstep; [|destruct k; discriminate].
    injection Hstep as <-. unfold speakNext. fields. rewrite Hpl, Hpa, Hq.
    cbn [negb]. destruct (Nat.leb_spec (length q) (currentIndex p)) as [Hle|Hlt].
    + split; [|split; [|split]]; fields; rewrite ?present_if; trivial.
      right; right. unfold finished. fields.
      assert (currentIndex p = length q) by lia.
      repeat split; trivial; try lia.
      * rewrite Hiss. f_equal. rewrite H. apply firstn_all.
      * rewrite Hpr. reflexivity.
    + split; [|split; [|split]]; fields; rewrite ?present_if; trivial.
      left. unfold waiting. fields. rewrite Hpe. cbn [app].
      repeat split; eauto; try lia.
      rewrite Hiss, firstn_S_nth by lia. now rewrite app_assoc.
  - destruct D as (Hpl & Hpe & Htm & Hci & Hiss & Herr & Hlen & Hst).
    destruct ev; try discriminate; cbn [step] in Hstep; cbn [is_error];
      rewrite ?Hpe, ?Hpa, ?Htm in Hstep; cbn in Hstep; try discriminate.
    destruct k; discriminate.
Qed.

Lemma session_run (p0 : player) (q : list jsstring) (evs : list event) :
  forall (len errs : nat) (p p' : player),
    session_inv p0 q len errs p ->
    forallb failure_event evs = true -> run evs p = Some p' ->
    session_inv p0 q (len + length evs) (errs + failures evs) p'.
Proof.
  induction evs as [|ev evs IH]; intros len errs p p' Hinv Hf Hrun.
  - injection Hrun as <-. unfold failures. simpl. now rewrite !Nat.add_0_r.
  - simpl in Hf. apply andb_true_iff in Hf. destruct Hf as [Hev Hf].
    cbn [run] in Hrun. destruct (step ev p) as [p1|] eqn:Hstep; [|discriminate].
    pose proof (session_step _ _ _ _ _ _ _ Hinv Hev Hstep) as Hinv1.
    specialize (IH _ _ _ _ Hinv1 Hf Hrun).
    unfold failures in *. cbn [filter length].
    replace (len + S (length evs))%nat with (S len + length evs)%nat by lia.
    destruct (is_error ev); cbn [length];
      [replace (errs + S (length (filter is_error evs)))%nat
         with (errs + 1 + length (filter is_error evs))%nat by lia
      |replace (errs + length (filter is_error evs))%nat
         with (errs + 0 + length (filter is_error evs))%nat by lia];
      exact IH.
Qed.

(** A session that starts with no timeout registered and an engine that is
    not paused starts in the waiting phase. *)
Lemma session_start (p0 p1 : player) (text : jsstring) (maxChars : Z) :
  timers p0 = [] -> paused (engine p0) = false ->
  playFromStart text maxChars p0 = Some p1 -> queue p1 <> [] ->
  session_inv p0 (queue p1) 0 0 p1.
Proof.
  intros Htm Hpa Hplay Hne. unfold playFromStart in Hplay.
  destruct (chunkText text maxChars) as [chunks|]; [|discriminate].
  cbn [queue set_queue set_currentIndex] in Hplay.
  destruct (Nat.eqb_spec (length chunks) 0) as [H0|H0].
  - injection Hplay as <-. exfalso. apply Hne. fields.
    now apply length_zero_iff_nil.
  - injection Hplay as <-. unfold speakNext. fields. rewrite Hpa. cbn [negb].
    destruct (Nat.leb_spec (length chunks) 0); [lia|]. fields.
    split; [|split; [|split]]; fields; trivial.
    + now rewrite present_if.
    + left. unfold waiting. fields. rewrite Htm.
      cbn [app]. repeat split; eauto; try lia.
      rewrite firstn_S_nth by lia. reflexivity.
Qed.

Lemma finished_at_rest (p0 : player) (q : list jsstring) (len errs : nat)
    (p : player) :
  finished p0 q len errs p -> at_rest p.
Proof.
  intros (_ & Hpe & Htm & _) ev Hev.
  destruct ev; try discriminate; cbn [step]; rewrite ?Hpe, ?Htm; trivial.
  now destruct k.
Qed.

(** Until the session is over, the engine can report the failure of the
    outstanding request or the deferred tick can fire. *)
Lemma session_progress (p0 : player) (q : list jsstring) (len errs : nat)
    (p : player) :
  session_inv p0 q len errs p ->
  finished p0 q len errs p \/
  exists ev p', failure_event ev = true /\ step ev p = Some p'.
Proof.
  intros (_ & _ & _ & [W | [T | D]]); [right|right|now left].
  - destruct W as (_ & (u & Hpe & _) & _).
    exists EngineError. eexists. split; trivial. cbn [step]. rewrite Hpe.
    reflexivity.
  - destruct T as (_ & _ & (ms & Htm) & _).
    exists (TimerFires 0). eexists. split; trivial. cbn [step]. rewrite Htm.
    reflexivity.
Qed.

Lemma session_len_bound (p0 : player) (q : list jsstring) (len errs : nat)
    (p : player) :
  session_inv p0 q len errs p -> (len <= 3 * length q)%nat.
Proof.
  intros (_ & _ & _ & [W | [T | D]]).
  - destruct W as (_ & _ & Hci & _ & _ & _ & Hlen).
    destruct (started (engine p)); lia.
  - destruct T as (_ & _ & _ & Hci & _ & _ & Hlen). lia.
  - destruct D as (_ & _ & _ & _ & _ & _ & Hlen & _). lia.
Qed.

Lemma session_completes (p0 : player) (q : list jsstring) (m : nat) :
  forall (len errs : nat) (p : player),
    session_inv p0 q len errs p -> (3 * length q - len <= m)%nat ->
    exists evs p',
      forallb failure_event evs = true /\ run evs p = Some p' /\
      finished p0 q (len + length evs) (errs + failures evs) p'.
Proof.
  induction m as [|m IH]; intros len errs p Hinv Hm;
    destruct (session_progress _ _ _ _ _ Hinv) as [D | (ev & p1 & Hev & Hstep)].
  - exists [], p. unfold failures. simpl. rewrite !Nat.add_0_r. auto.
  - pose proof (session_step _ _ _ _ _ _ _ Hinv Hev Hstep) as Hinv1.
    apply session_len_bound in Hinv1. lia.
  - exists [], p. unfold failures. simpl. rewrite !Nat.add_0_r. auto.
  - pose proof (session_step _ _ _ _ _ _ _ Hinv Hev Hstep) as Hinv1.
    destruct (IH _ _ _ Hinv1 ltac:(lia)) as (evs & p' & Hf & Hrun & Hfin).
    exists (ev :: evs), p'. split; [|split].
    + simpl. now rewrite Hev, Hf.
    + cbn [run]. now rewrite Hstep.
    + unfold failures in *. cbn [filter length].
      replace (len + S (length evs))%nat with (S len + length evs)%nat by lia.
      destruct (is_error ev); cbn [length];
        [replace (errs + S (length (filter is_error evs)))%nat
           with (errs + 1 + length (filter is_error evs))%nat by lia
        |replace (errs + length (filter is_error evs))%nat
           with (errs + 0 + length (filter is_error evs))%nat by lia];
        exact Hfin.
Qed.

Lemma session_done_of_finished (p0 p1 p : player) (len errs : nat) :
  finished p0 (queue p1) len errs p -> session_done p0 p1 p.
Proof.
  intros (Hpl & Hpe & Htm & Hci & Hiss & Herr & Hlen & Hst).
  unfold session_done. auto.
Qed.

Lemma all_fail_from_rest_aux (p0 : player) (text : jsstring) (maxChars : Z) :
  timers p0 = [] -> paused (engine p0) = false ->
  all_fail_session p0 text maxChars.
Proof.
  intros Htm Hpa p1 Hplay Hne.
  pose proof (session_start _ _ _ _ Htm Hpa Hplay Hne) as Hinv. split.
  - intros evs p Hf Hrun.
    pose proof (session_run _ _ _ _ _ _ _ Hinv Hf Hrun) as Hinv'.
    cbn [Nat.add] in Hinv'.
    pose proof (session_len_bound _ _ _ _ _ Hinv') as Hlen.
    destruct (session_progress _ _ _ _ _ Hinv') as [D | (ev & p' & Hev & Hstep)].
    + pose proof D as (Hpl & Hpe & _ & _ & Hiss & Herr & _).
      split; [|split; [|split; [|split]]]; trivial.
      * rewrite Hpe. simpl. lia.
      * exists (length (queue p1)). now rewrite firstn_all.
      * intros _. split; trivial. now apply session_done_of_finished in D.
    + assert (Hnot : ~ at_rest p).
      { intros Hrest. rewrite (Hrest ev Hev) in Hstep. discriminate. }
      destruct Hinv' as (_ & _ & _ & [W | [T | D]]).
      * destruct W as (Hpl & (u & Hpe & _) & _ & _ & Hiss & _).
        split; [|split; [|split; [|split]]]; trivial.
        -- rewrite Hpe. simpl. lia.
        -- eauto.
        -- congruence.
        -- intros Hrest. now apply Hnot in Hrest.
      * destruct T as (Hpl & Hpe & _ & _ & Hiss & _).
        split; [|split; [|split; [|split]]]; trivial.
        -- rewrite Hpe. simpl. lia.
        -- eauto.
        -- congruence.
        -- intros Hrest. now apply Hnot in Hrest.
      * apply finished_at_rest in D. now apply Hnot in D.
  - destruct (session_completes p0 (queue p1) (3 * length (queue p1)) 0 0 p1 Hinv
                ltac:(lia)) as (evs & p & Hf & Hrun & Hfin).
    exists evs, p. split; [|split; [|split; [|split]]]; trivial.
    + eapply finished_at_rest; eauto.
    + now apply session_done_of_finished in Hfin.
    + destruct Hfin as (_ & _ & _ & _ & _ & Herr & _). exact Herr.
Qed.

Lemma playFromStart_returns (text : jsstring) (maxChars : Z) (p0 : player) :
  0 < maxChars -> exists p1, playFromStart text maxChars p0 = Some p1.
Proof.
  intros Hm. unfold playFromStart.
  destruct (chunkText_pieces text maxChars Hm) as (ps & -> & _).
  destruct (_ =? _)%nat; eauto.
Qed.

(** An engine that fails on both segments of a text: two failure callbacks,
    each followed by its deferred tick, end the session in Done. *)
Example all_fail_run :
  option_map
    (fun p => (statusText p, isPlaying p, currentIndex p,
               issued (engine p), pending (engine p)))
    (run [Play (lit "a. b. c.") 4; EngineError; TimerFires 0;
          EngineError; TimerFires 0] loaded_page)
  = Some (Some Done, false, 2%nat, [lit "a. b"; lit ". c."], []).
Proof. vm_compute. reflexivity. Qed.

(** ** The progress label *)

Lemma progress_le (p : player) : (fst (progress p) <= snd (progress p))%nat.
Proof. unfold progress. simpl. lia. Qed.

Lemma label_clamped_setProgress (p : player) : label_clamped (setProgress p).
Proof.
  unfold label_clamped. fields. destruct (present (progressText p)); trivial.
  apply progress_le.
Qed.

Lemma label_clamped_frame (p p' : player) :
  progressText p' = progressText p -> label_clamped p -> label_clamped p'.
Proof. unfold label_clamped. now intros ->. Qed.

Lemma label_clamped_speakNext (p : player) :
  label_clamped p -> label_clamped (speakNext p).
Proof.
  intros H. unfold speakNext.
  destruct (negb (isPlaying p)); trivial.
  destruct (paused (engine p)); trivial.
  destruct (_ <=? _)%nat.
  - apply label_clamped_setProgress.
  - eapply label_clamped_frame; [|exact H]. reflexivity.
Qed.

Lemma label_clamped_step (ev : event) (p p' : player) :
  label_clamped p -> step ev p = Some p' -> label_clamped p'.
Proof.
  intros H Hstep. destruct ev; cbn [step] in Hstep.
  - unfold playFromStart in Hstep.
    destruct (chunkText text maxChars); [|discriminate].
    destruct (_ =? _)%nat; injection Hstep as <-.
    + apply label_clamped_setProgress.
    + apply label_clamped_speakNext, label_clamped_setProgress.
  - injection Hstep as <-. unfold pause.
    destruct (_ && _); trivial.
    eapply label_clamped_frame; [|exact H]. now fields.
  - injection Hstep as <-. unfold resume.
    destruct (paused (engine p)).
    + eapply label_clamped_frame; [|exact H]. now fields.
    + destruct (_ && _); trivial. now apply label_clamped_speakNext.
  - injection Hstep as <-. apply label_clamped_setProgress.
  - destruct (_ && _); [|discriminate]. injection Hstep as <-.
    apply label_clamped_setProgress.
  - destruct (_ && _); [|discriminate]. injection Hstep as <-.
    unfold onend. eapply label_clamped_frame;
      [|apply (label_clamped_setProgress
                 (set_currentIndex (currentIndex p + 1)
                    (set_engine (synth_resolve (engine p)) p)))].
    reflexivity.
  - destruct (truthy_list _); [|discriminate]. injection Hstep as <-.
    unfold onerror. eapply label_clamped_frame; [|exact H]. now fields.
  - destruct (nth_error (timers p) k) as [t|]; [|discriminate].
    injection Hstep as <-.
    assert (H' : label_clamped (set_timers (remove_nth k (timers p)) p))
      by (eapply label_clamped_frame; [|exact H]; reflexivity).
    destruct t.
    + now apply label_clamped_speakNext.
    + unfold resume_nudge. destruct (_ && _); trivial.
      now apply label_clamped_speakNext.
Qed.

Lemma label_clamped_run (evs : list event) :
  forall p p', label_clamped p -> run evs p = Some p' -> label_clamped p'.
Proof.
  induction evs as [|ev evs IH]; intros p p' H Hrun; cbn [run] in Hrun.
  - now injection Hrun as <-.
  - destruct (step ev p) as [p1|] eqn:E; [|discriminate].
    eapply IH; [|exact Hrun]. eapply label_clamped_step; eauto.
Qed.

(** ** Sorting the voices *)

Section SortingFacts.

Variable localeCompare : jsstring -> jsstring -> Z.
Hypothesis Hcmp : consistent localeCompare.

Lemma voice_le_english_first (a b : voice) :
  voice_le localeCompare a b <-> english_first localeCompare a b.
Proof.
  unfold voice_le, english_first, voice_compare.
  destruct (is_english a), (is_english b); simpl; split;
    try (intros [H1 H2]); try intuition (try lia; try congruence).
Qed.

Lemma voice_le_total (a b : voice) :
  voice_le localeCompare a b \/ voice_le localeCompare b a.
Proof.
  unfold voice_le, voice_compare. destruct Hcmp as [Htot _].
  destruct (is_english a), (is_english b); simpl; try lia; apply Htot.
Qed.

Lemma voice_le_trans (a b c : voice) :
  voice_le localeCompare a b -> voice_le localeCompare b c ->
  voice_le localeCompare a c.
Proof.
  unfold voice_le, voice_compare. destruct Hcmp as [_ Htr].
  destruct (is_english a), (is_english b), (is_english c); simpl;
    try lia; apply Htr.
Qed.

Lemma insert_sorted_perm (x : voice) (l : list voice) :
  Permutation (x :: l) (insert_sorted localeCompare x l).
Proof.
  induction l as [|y l IH]; simpl; trivial.
  destruct (voice_compare localeCompare x y <=? 0); trivial.
  rewrite perm_swap. now constructor.
Qed.

Lemma sort_voices_perm (l : list voice) :
  Permutation l (sort_voices localeCompare l).
Proof.
  induction l as [|x l IH]; simpl; trivial.
  rewrite <- insert_sorted_perm. now constructor.
Qed.

Lemma insert_sorted_sorted (x : voice) (l : list voice) :
  StronglySorted (voice_le localeCompare) l ->
  StronglySorted (voice_le localeCompare) (insert_sorted localeCompare x l).
Proof.
  induction 1 as [|y l Hs IH Hall]; simpl.
  - repeat constructor.
  - destruct (Z.leb_spec (voice_compare localeCompare x y) 0) as [Hle|Hgt].
    + constructor; [now constructor|]. constructor; trivial.
      eapply Forall_impl; [|exact Hall]. intros z Hz.
      eapply voice_le_trans; eauto.
    + constructor; trivial.
      assert (Hyx : voice_le localeCompare y x).
      { destruct (voice_le_total x y) as [H|H]; trivial.
        unfold voice_le in H. lia. }
      eapply Permutation_Forall; [apply insert_sorted_perm|].
      constructor; trivial.
Qed.

Lemma sort_voices_sorted (l : list voice) :
  StronglySorted (voice_le localeCompare) (sort_voices localeCompare l).
Proof.
  induction l as [|x l IH]; simpl; [constructor|].
  now apply insert_sorted_sorted.
Qed.

Lemma sort_voices_english_first (l : list voice) :
  StronglySorted (english_first localeCompare) (sort_voices localeCompare l).
Proof.
  pose proof (sort_voices_sorted l) as H.
  induction H as [|y s Hs IH Hall]; constructor; trivial.
  eapply Forall_impl; [|exact Hall]. intros z. apply voice_le_english_first.
Qed.

End SortingFacts.

Lemma find_first_such (f : voice -> bool) (l : list voice) :
  match find f l with
  | Some v => first_such f l v
  | None => none_such f l
  end.
Proof.
  induction l as [|x l IH]; simpl; [reflexivity|].
  destruct (f x) eqn:E.
  - exists [], l. auto.
  - destruct (find f l) as [v|].
    + destruct IH as (l1 & l2 & -> & Hv & Hl1).
      exists (x :: l1), l2. simpl. rewrite E. auto.
    + unfold none_such in *. simpl. now rewrite E.
Qed.

Lemma first_such_In (f : voice -> bool) (l : list voice) (v : voice) :
  first_such f l v -> In v l.
Proof. intros (l1 & l2 & -> & _). apply in_or_app. right. now left. Qed.

Lemma preferred_picked (sorted : list voice) :
  match preferred sorted with
  | Some w => picked sorted w /\ In w sorted
  | None => none_such is_english sorted
  end.
Proof.
  unfold preferred, picked.
  pose proof (find_first_such marked_en_US sorted) as Ha.
  pose proof (find_first_such is_en_US sorted) as Hb.
  pose proof (find_first_such is_english sorted) as Hc.
  fold marked_en_US.
  change (fun v : voice => is_en_US v && has_marker v) with marked_en_US.
  destruct (find marked_en_US sorted) as [a|].
  { split; [auto | eapply first_such_In; eauto]. }
  destruct (find is_en_US sorted) as [b|].
  { split; [auto | eapply first_such_In; eauto]. }
  destruct (find is_english sorted) as [c|]; trivial.
  split; [auto 6 | eapply first_such_In; eauto].
Qed.

Lemma or_else_truthy (s : jsstring) (b : option jsstring) :
  s <> [] -> or_else (Some s) b = Some s.
Proof. destruct s; simpl; congruence. Qed.

Lemma default_voiceURI_picked (localeCompare : jsstring -> jsstring -> Z)
    (available : list voice) :
  (forall v, In v available -> voiceURI v <> []) ->
  match sort_voices localeCompare available with
  | [] => default_voiceURI localeCompare available = None
  | _ :: _ =>
      exists w, In w available /\
                picked (sort_voices localeCompare available) w /\
                default_voiceURI localeCompare available = Some (voiceURI w)
  end.
Proof.
  intros Huri. unfold default_voiceURI.
  pose proof (sort_voices_perm localeCompare available) as Hperm.
  pose proof (preferred_picked (sort_voices localeCompare available)) as Hp.
  destruct (sort_voices localeCompare available) as [|first rest] eqn:Es.
  - reflexivity.
  - destruct (preferred (first :: rest)) as [w|].
    + destruct Hp as [Hp Hin]. exists w.
      assert (In w available).
      { eapply Permutation_in; [symmetry; exact Hperm | exact Hin]. }
      repeat split; trivial. cbn [option_map]. apply or_else_truthy. auto.
    + exists first.
      assert (In first available).
      { eapply Permutation_in; [symmetry; exact Hperm | now left]. }
      repeat split; trivial.
      * unfold picked. auto 6.
      * cbn [option_map hd_error or_else]. 
        destruct (voiceURI first) eqn:E; [now apply Huri in H|reflexivity].
Qed.

Lemma codeunit_compare_consistent : consistent codeunit_compare.
Proof.
  split.
  - induction a as [|x a IH]; destruct b as [|y b]; simpl; try lia.
    destruct (N.ltb_spec x y), (N.ltb_spec y x); try lia. apply IH.
  - induction a as [|x a IH]; destruct b as [|y b]; destruct c as [|z c];
      simpl; try lia.
    destruct (N.ltb_spec x y), (N.ltb_spec y x), (N.ltb_spec y z),
      (N.ltb_spec z y), (N.ltb_spec x z), (N.ltb_spec z x); try lia.
    apply IH.
Qed.

Lemma loadVoices_selected (localeCompare : jsstring -> jsstring -> Z)
    (available : list voice) (p : player) :
  voiceSelect p <> None ->
  selectedVoiceURI (loadVoices localeCompare available p)
  = default_voiceURI localeCompare available.
Proof.
  intros Hsel. unfold loadVoices. cbn [voiceSelect set_voices].
  destruct (voiceSelect p); [|congruence].
  now destruct (default_voiceURI localeCompare available).
Qed.

(** ** The sort is stable, and that determines it *)

Section Stability.

Variable localeCompare : jsstring -> jsstring -> Z.
Hypothesis Hcmp : consistent localeCompare.

Lemma same_rank_iff (v w : voice) :
  same_rank localeCompare v w = true
  <-> voice_le localeCompare v w /\ voice_le localeCompare w v.
Proof.
  unfold same_rank, voice_le. rewrite andb_true_iff, !Z.leb_le. tauto.
Qed.

Lemma same_rank_refl (v : voice) : same_rank localeCompare v v = true.
Proof.
  apply same_rank_iff. destruct (voice_le_total localeCompare Hcmp v v); auto.
Qed.

Lemma same_rank_sym (v w : voice) :
  same_rank localeCompare v w = same_rank localeCompare w v.
Proof. unfold same_rank. apply andb_comm. Qed.

(** Insertion does not move the new entry past an entry of its rank. *)
Lemma insert_sorted_stable (v x : voice) (l : list voice) :
  filter (same_rank localeCompare v) (insert_sorted localeCompare x l)
  = filter (same_rank localeCompare v) (x :: l).
Proof.
  induction l as [|y l IH]; trivial.
  cbn [insert_sorted].
  destruct (Z.leb_spec (voice_compare localeCompare x y) 0) as [Hle|Hgt];
    trivial.
  cbn [filter] in *. rewrite IH.
  destruct (same_rank localeCompare v y) eqn:Ey; trivial.
  destruct (same_rank localeCompare v x) eqn:Ex; trivial.
  exfalso. apply same_rank_iff in Ex, Ey.
  destruct Ex as [_ Hxv]. destruct Ey as [Hvy _].
  pose proof (voice_le_trans localeCompare Hcmp _ _ _ Hxv Hvy) as Hxy.
  unfold voice_le in Hxy. lia.
Qed.

(** Entries of one rank keep the order in which they came. *)
Lemma sort_voices_stable (v : voice) (l : list voice) :
  filter (same_rank localeCompare v) (sort_voices localeCompare l)
  = filter (same_rank localeCompare v) l.
Proof.
  induction l as [|x l IH]; trivial.
  cbn [sort_voices]. rewrite insert_sorted_stable. cbn [filter].
  now rewrite IH.
Qed.

Lemma filter_cons_split (f : voice -> bool) (l : list voice) (a : voice)
    (r : list voice) :
  filter f l = a :: r ->
  exists pre post,
    l = pre ++ a :: post /\ forallb (fun x => negb (f x)) pre = true /\
    f a = true /\ filter f post = r.
Proof.
  induction l as [|x l IH]; [discriminate|]. cbn [filter].
  destruct (f x) eqn:E.
  - intros H. injection H as -> <-. exists [], l. auto.
  - intros H. destruct (IH H) as (pre & post & -> & Hpre & Ha & Hr).
    exists (x :: pre), post. simpl. rewrite E. auto.
Qed.

(** Two sorted lists with the same entries of every rank, in the same
    order, are the same list. *)
Lemma sorted_stable_unique (s1 : list voice) :
  forall s2,
    StronglySorted (voice_le localeCompare) s1 ->
    StronglySorted (voice_le localeCompare) s2 ->
    (forall v, filter (same_rank localeCompare v) s1
               = filter (same_rank localeCompare v) s2) ->
    s1 = s2.
Proof.
  induction s1 as [|a s1 IH]; intros s2 H1 H2 Hf.
  - destruct s2 as [|b s2]; trivial.
    specialize (Hf b). cbn [filter] in Hf.
    rewrite same_rank_refl in Hf. discriminate.
  - pose proof (Hf a) as Ha. cbn [filter] in Ha.
    rewrite same_rank_refl in Ha. symmetry in Ha.
    destruct (filter_cons_split _ _ _ _ Ha) as (pre & post & -> & Hpre & _ & _).
    inversion H1 as [|a' s1' Hs1 Hall1]; subst.
    assert (pre = []) as ->.
    { destruct pre as [|b pre]; trivial. exfalso.
      simpl in Hpre. apply andb_true_iff in Hpre. destruct Hpre as [Hab _].
      apply negb_true_iff in Hab.
      assert (Hba : voice_le localeCompare b a).
      { inversion H2 as [|b' t Ht Hall2]; subst.
        rewrite Forall_forall in Hall2. apply Hall2.
        apply in_or_app. right. now left. }
      pose proof (Hf b) as Hb. cbn [filter app] in Hb.
      rewrite same_rank_refl in Hb.
      rewrite (same_rank_sym b a), Hab in Hb.
      assert (Hc : In b (filter (same_rank localeCompare b) s1))
        by (rewrite Hb; now left).
      apply filter_In in Hc. destruct Hc as [Hin Hbb].
      rewrite Forall_forall in Hall1. specialize (Hall1 _ Hin).
      assert (same_rank localeCompare a b = true)
        by (apply same_rank_iff; auto).
      congruence. }
    cbn [app] in *. f_equal.
    inversion H2 as [|a' t Ht Hall2]; subst.
    apply IH; trivial.
    intros v. specialize (Hf v). cbn [filter] in Hf.
    destruct (same_rank localeCompare v a); [now injection Hf|trivial].
Qed.

(** The sorted list of the source is the only list that is sorted and
    stable. *)
Lemma sort_voices_unique (available s : list voice) :
  StronglySorted (english_first localeCompare) s ->
  (forall v, filter (same_rank localeCompare v) s
             = filter (same_rank localeCompare v) available) ->
  s = sort_voices localeCompare available.
Proof.
  intros Hs Hf. apply sorted_stable_unique.
  - clear Hf. induction Hs as [|y t Ht IH Hall]; constructor; trivial.
    eapply Forall_impl; [|exact Hall]. intros z.
    now apply voice_le_english_first.
  - now apply sort_voices_sorted.
  - intros v. now rewrite sort_voices_stable.
Qed.

End Stability.

(** * Part III: the claims *)

(** C1 (as amended).  A session started by [playFromStart] while no timeout
    is registered (neither a deferred tick of [speakNext] nor the check
    that [resume()] schedules) and the engine is not paused, and driven by
    engine callbacks and timeouts only with every request failing: at most one
    request is outstanding at every point, the segments are issued in order
    and once each, every run is at most three events per segment long, the
    playing flag is cleared only after exactly [length queue] failure
    callbacks, a run that cannot go on has reached Done, and such a run
    exists.  [playFromStart] itself returns for every positive [maxChars]. *)
Theorem all_fail_session_from_rest (p0 : player) (text : jsstring)
    (maxChars : Z) :
  timers p0 = [] -> paused (engine p0) = false ->
  (0 < maxChars -> exists p1, playFromStart text maxChars p0 = Some p1) /\
  all_fail_session p0 text maxChars.
Proof.
  intros Htm Hpa. split.
  - intros Hm. now apply playFromStart_returns.
  - now apply all_fail_from_rest_aux.
Qed.

Lemma all_fail_session_from_rest_witness :
  timers loaded_page = [] /\ paused (engine loaded_page) = false /\
  (0 < 4 -> exists p1,
      playFromStart (lit "a. b. c.") 4 loaded_page = Some p1) /\
  all_fail_session loaded_page (lit "a. b. c.") 4.
Proof.
  split; [reflexivity|]. split; [reflexivity|].
  apply (all_fail_session_from_rest loaded_page (lit "a. b. c.") 4);
    reflexivity.
Defined.

(** C1 as stated fails.  The first session fails on its only segment, and
    the operator presses Play again before the deferred tick of that failure
    has fired.  In the second session the tick then issues the segment a
    second time while the first request for it is still outstanding. *)
Lemma stale_tick_doubles_request :
  run [Play (lit "a") 5; EngineError] loaded_page = Some stale_tick_page /\
  timers stale_tick_page = [SpeakNextIn 120] /\
  run [Play (lit "a") 5; TimerFires 0] stale_tick_page
    = Some doubled_request_page /\
  map utext (pending (engine doubled_request_page)) = [lit "a"; lit "a"] /\
  ~ all_fail_session stale_tick_page (lit "a") 5.
Proof.
  split; [vm_compute; reflexivity|]. split; [reflexivity|].
  split; [vm_compute; reflexivity|]. split; [reflexivity|].
  intros H.
  destruct (playFromStart (lit "a") 5 stale_tick_page) as [p1|] eqn:E1;
    [|vm_compute in E1; discriminate].
  assert (E2 : run [TimerFires 0] p1 = Some doubled_request_page).
  { vm_compute in E1. injection E1 as <-. vm_compute. reflexivity. }
  assert (Hq : queue p1 <> []).
  { vm_compute in E1. injection E1 as <-. discriminate. }
  destruct (H p1 E1 Hq) as [Hsafe _].
  destruct (Hsafe [TimerFires 0] _ eq_refl E2) as [Hlen _].
  vm_compute in Hlen. lia.
Qed.

(** A session that is started while the engine is paused issues no request
    and never reaches Done: the hypothesis on the paused flag is needed. *)
Lemma paused_start_never_done :
  run [Play (lit "a") 5; EngineStart; Pause] loaded_page = Some paused_page /\
  paused (engine paused_page) = true /\
  ~ all_fail_session paused_page (lit "a") 5.
Proof.
  split; [vm_compute; reflexivity|]. split; [reflexivity|].
  intros H.
  assert (E1 : playFromStart (lit "a") 5 paused_page
               = Some paused_session_start) by (vm_compute; reflexivity).
  destruct (H _ E1 ltac:(discriminate)) as [Hsafe _].
  destruct (Hsafe [] _ eq_refl eq_refl) as (_ & _ & _ & _ & Hrest).
  assert (R : at_rest paused_session_start).
  { intros ev Hev. destruct ev; try discriminate; try reflexivity.
    now destruct k. }
  destruct (Hrest R) as [(Hpl & _) _]. discriminate.
Qed.

(** The check that [resume()] schedules is a timeout like the deferred
    tick: registered when Play is pressed, it fires after the first failure
    and issues the second segment, and the deferred tick of that failure
    then issues the second segment again.  So the session must start with
    no timeout of either kind registered. *)
Lemma resume_check_doubles_request :
  run [Play (lit "a. b. c.") 4; EngineStart; Pause; Resume] loaded_page
    = Some resume_check_page /\
  timers resume_check_page = [ResumeNudge] /\
  paused (engine resume_check_page) = false /\
  run [Play (lit "a. b. c.") 4; EngineError; TimerFires 0; TimerFires 0]
      resume_check_page
    = Some doubled_after_check_page /\
  map utext (pending (engine doubled_after_check_page))
    = [lit ". c."; lit ". c."] /\
  ~ all_fail_session resume_check_page (lit "a. b. c.") 4.
Proof.
  split; [vm_compute; reflexivity|]. split; [reflexivity|].
  split; [reflexivity|]. split; [vm_compute; reflexivity|].
  split; [reflexivity|].
  intros H.
  destruct (playFromStart (lit "a. b. c.") 4 resume_check_page)
    as [p1|] eqn:E1; [|vm_compute in E1; discriminate].
  assert (E2 : run [EngineError; TimerFires 0; TimerFires 0] p1
               = Some doubled_after_check_page).
  { vm_compute in E1. injection E1 as <-. vm_compute. reflexivity. }
  assert (Hq : queue p1 <> []).
  { vm_compute in E1. injection E1 as <-. discriminate. }
  destruct (H p1 E1 Hq) as [Hsafe _].
  destruct (Hsafe [EngineError; TimerFires 0; TimerFires 0] _ eq_refl E2)
    as [Hlen _].
  vm_compute in Hlen. lia.
Qed.

(** C2 (as amended).  For every text and positive [maxChars] the chunker
    returns, and its chunks are the non-empty trims of consecutive pieces
    whose concatenation is exactly the clean text; so joining the chunks
    gives the clean text except for white space at the ends of the pieces:
    the characters that are not white space are all there, once and in
    order. *)
Theorem chunks_cover_clean_text (text : jsstring) (maxChars : Z) :
  0 < maxChars ->
  exists chunks pieces,
    chunkText text maxChars = Some chunks /\
    concat pieces = clean_text text /\
    chunks = filter truthy (map trim pieces) /\
    visible (concat chunks) = visible (clean_text text).
Proof.
  intros Hm. destruct (chunkText_pieces text maxChars Hm) as (ps & Hr & Hc & _).
  exists (filter truthy (map trim ps)), ps. repeat split; trivial.
  now rewrite visible_kept_pieces, Hc.
Qed.

Lemma chunks_cover_clean_text_witness :
  0 < 2 /\
  exists chunks pieces,
    chunkText (lit "abc d") 2 = Some chunks /\
    concat pieces = clean_text (lit "abc d") /\
    chunks = filter truthy (map trim pieces) /\
    visible (concat chunks) = visible (clean_text (lit "abc d")).
Proof.
  split; [lia|]. apply (chunks_cover_clean_text (lit "abc d") 2). lia.
Defined.

(** C2 as stated fails: the chunks of ["abc d"] for [maxChars = 2] are
    ["ab"], ["c"] and ["d"], and no separator joins them back into the
    text. *)
Lemma join_does_not_reconstruct :
  0 < 2 /\
  chunkText (lit "abc d") 2 = Some [lit "ab"; lit "c"; lit "d"] /\
  ~ join_reconstructs (lit "abc d") 2.
Proof.
  split; [lia|]. split; [vm_compute; reflexivity|].
  intros (chunks & sep & Hc & Hj).
  vm_compute in Hc. injection Hc as <-.
  replace (clean_text (lit "abc d")) with (lit "abc d") in Hj
    by (vm_compute; reflexivity).
  apply (f_equal (@length codeunit)) in Hj. cbn [join] in Hj.
  rewrite !length_app in Hj. simpl in Hj. lia.
Qed.

(** C3 (as amended).  With [maxChars <= 0] the chunker raises no error: on
    an empty or blank text it returns the empty sequence, and on any other
    text it does not return, however long the loop is run. *)
Theorem nonpositive_maxChars_outcome (text : jsstring) (maxChars : Z) :
  maxChars <= 0 ->
  chunkText_outcome text maxChars
    = (if truthy (clean_text text) then NoReturn else Returned []) /\
  forall fuel,
    chunkText_fuel fuel text maxChars
    = if truthy (clean_text text) then None else Some [].
Proof.
  intros Hm. split.
  - unfold chunkText_outcome, chunkText.
    rewrite chunkText_fuel_nonpositive by assumption.
    now destruct (truthy (clean_text text)).
  - intros fuel. now apply chunkText_fuel_nonpositive.
Qed.

Lemma nonpositive_maxChars_outcome_witness :
  0 <= 0 /\
  chunkText_outcome (lit "a") 0
    = (if truthy (clean_text (lit "a")) then NoReturn else Returned []) /\
  forall fuel,
    chunkText_fuel fuel (lit "a") 0
    = if truthy (clean_text (lit "a")) then None else Some [].
Proof.
  split; [lia|]. apply (nonpositive_maxChars_outcome (lit "a") 0). lia.
Defined.

(** C3 as stated fails: with [maxChars = 0] a blank text makes the chunker
    return the empty sequence, and never an error is raised. *)
Lemma nonpositive_maxChars_no_error :
  0 <= 0 /\
  chunkText_outcome (lit "  ") 0 = Returned [] /\
  chunkText_outcome (lit "  ") 0 <> Threw InvalidArgument.
Proof.
  split; [lia|]. split; [vm_compute; reflexivity|].
  vm_compute. discriminate.
Qed.

(** C4.  For every text and positive [maxChars] the chunker returns, and
    every chunk has at most [maxChars] code units or is the end of the
    clean text. *)
Theorem chunk_length_bound (text : jsstring) (maxChars : Z) :
  0 < maxChars ->
  exists chunks,
    chunkText text maxChars = Some chunks /\
    Forall (fun c => jslength c <= maxChars \/ ends_text (clean_text text) c)
           chunks.
Proof.
  intros Hm. destruct (chunkText_pieces text maxChars Hm) as (ps & Hr & _).
  eexists. split; [exact Hr|].
  eapply Forall_impl; [|exact (chunks_bounded _ _ _ Hm Hr)].
  intros c Hc. now left.
Qed.

Lemma chunk_length_bound_witness :
  0 < 25 /\
  exists chunks,
    chunkText (lit "One sentence here. Another one follows. ") 25
      = Some chunks /\
    Forall (fun c =>
              jslength c <= 25 \/
              ends_text
                (clean_text (lit "One sentence here. Another one follows. "))
                c)
           chunks.
Proof.
  split; [lia|].
  apply (chunk_length_bound
           (lit "One sentence here. Another one follows. ") 25).
  lia.
Defined.

(** C5.  In every window the break point computed by the chunker is the
    overall rightmost index of a candidate pattern (or [-1] when there is
    none); the end moves to just after it exactly when the proposed end is
    before the end of the text and a break point lies past index 200 of the
    window, and the proposed end is kept otherwise. *)
Theorem break_point_choice (clean : jsstring) (maxChars i : Z) :
  let end0 := proposed_end clean maxChars i in
  let window := slice clean i end0 in
  rightmost_break window (lastBreak window) /\
  ((end0 < jslength clean /\
    (exists p, is_break window p /\ (200 < p)%nat) /\
    chunk_end clean maxChars i = i + lastBreak window + 1)
   \/
   (~ (end0 < jslength clean /\
       exists p, is_break window p /\ (200 < p)%nat) /\
    chunk_end clean maxChars i = end0)).
Proof.
  intros end0 window. split; [apply lastBreak_rightmost|].
  unfold chunk_end. fold end0. fold window.
  pose proof (lastBreak_past_floor window) as Hfloor.
  destruct (Z.ltb_spec end0 (jslength clean)) as [He|He];
    destruct (Z.ltb_spec 200 (lastBreak window)) as [Hb|Hb]; simpl.
  - left. repeat split; trivial. now apply Hfloor.
  - right. split; trivial. intros [_ Hp]. apply Hfloor in Hp. lia.
  - right. split; trivial. intros [Hlt _]. lia.
  - right. split; trivial. intros [Hlt _]. lia.
Qed.

(** C6.  [stop()] can be called in every state and always returns; it
    leaves the engine without any outstanding request, the queue empty, the
    cursor at 0, the playing flag cleared, the status label on Stopped and
    the progress at (0, 0). *)
Theorem stop_from_any_state (p : player) :
  step Stop p = Some (stopAll p) /\
  pending (engine (stopAll p)) = [] /\
  speaking (engine (stopAll p)) = false /\
  queue (stopAll p) = [] /\
  currentIndex (stopAll p) = 0%nat /\
  isPlaying (stopAll p) = false /\
  statusText (stopAll p) = (if present (statusText p) then Some Stopped else None) /\
  progress (stopAll p) = (0%nat, 0%nat) /\
  progressText (stopAll p)
    = (if present (progressText p) then Some (0%nat, 0%nat) else None).
Proof.
  unfold stopAll. repeat split; fields; trivial.
Qed.

(** C7.  In every state [progress()] is the pair
    [(min cursor total, total)], its first component never exceeds the
    second, [setProgress] writes exactly that pair to the label, also right
    after the last segment has ended and the cursor has been incremented,
    and along every run of the page the label stays clamped. *)
Theorem progress_clamped (p : player) :
  progress p
    = (Nat.min (currentIndex p) (length (queue p)), length (queue p)) /\
  (fst (progress p) <= snd (progress p))%nat /\
  progressText (setProgress p)
    = (if present (progressText p) then Some (progress p) else None) /\
  progressText (onend p)
    = (if present (progressText p)
       then Some (Nat.min (currentIndex p + 1) (length (queue p)),
                  length (queue p))
       else None) /\
  forall evs p', label_clamped p -> run evs p = Some p' -> label_clamped p'.
Proof.
  split; [reflexivity|]. split; [apply progress_le|].
  split; [now fields|]. split; [unfold onend; now fields|].
  intros evs p'. apply label_clamped_run.
Qed.

Lemma progress_clamped_witness :
  label_clamped loaded_page /\
  run [Play (lit "a. b. c.") 4; EngineStart; EngineEnd;
       TimerFires 0; EngineStart; EngineEnd] loaded_page
    = Some two_segments_ended /\
  progressText two_segments_ended = Some (2%nat, 2%nat) /\
  label_clamped two_segments_ended.
Proof.
  assert (H0 : label_clamped loaded_page) by (vm_compute; lia).
  assert (Hrun : run [Play (lit "a. b. c.") 4; EngineStart; EngineEnd;
                      TimerFires 0; EngineStart; EngineEnd] loaded_page
                 = Some two_segments_ended) by (vm_compute; reflexivity).
  split; [exact H0|]. split; [exact Hrun|]. split; [reflexivity|].
  destruct (progress_clamped loaded_page) as (_ & _ & _ & _ & H).
  exact (H _ _ H0 Hrun).
Defined.

(** C8.  [pause()] changes nothing unless the engine reports that it is
    speaking and not paused; then it pauses the engine and sets the status
    label to Paused, and nothing else changes. *)
Theorem pause_guard (p : player) :
  (speaking (engine p) && negb (paused (engine p)) = false /\ pause p = p)
  \/
  (speaking (engine p) = true /\ paused (engine p) = false /\
   paused (engine (pause p)) = true /\
   statusText (pause p) = (if present (statusText p) then Some Paused else None) /\
   pause p = setStatus Paused (set_engine (synth_pause (engine p)) p) /\
   pending (engine (pause p)) = pending (engine p) /\
   speaking (engine (pause p)) = true /\
   queue (pause p) = queue p /\ currentIndex (pause p) = currentIndex p /\
   isPlaying (pause p) = isPlaying p /\ timers (pause p) = timers p /\
   progressText (pause p) = progressText p).
Proof.
  unfold pause.
  destruct (speaking (engine p)) eqn:Es, (paused (engine p)) eqn:Ep; simpl;
    [left|right|left|left]; auto.
  repeat split; fields; trivial.
Qed.

(** C9 (as amended).  For a consistent [localeCompare] and voices with
    non-empty URIs: the sorted list is a permutation of the available
    voices in which English entries stand before the others and names
    ascend within each group; the sort is stable, that is, entries that the
    comparator does not tell apart keep the order in which they came, and
    the sorted list is the only list that is sorted so and stable; the
    default is the first entry of the sorted list that is [en-US] and
    carries one of the markers Enhanced, Premium or Google (any letter
    case), else the first [en-US] entry, else the first entry whose tag
    starts with [en] in any letter case, else the first entry; nothing is
    selected when the list is empty; and [loadVoices] stores that choice
    when the select element exists. *)
Theorem default_voice_policy (localeCompare : jsstring -> jsstring -> Z)
    (available : list voice) (p : player) :
  consistent localeCompare ->
  (forall v, In v available -> voiceURI v <> []) ->
  Permutation available (sort_voices localeCompare available) /\
  StronglySorted (english_first localeCompare)
                 (sort_voices localeCompare available) /\
  (forall v,
      filter (same_rank localeCompare v) (sort_voices localeCompare available)
      = filter (same_rank localeCompare v) available) /\
  (forall s,
      StronglySorted (english_first localeCompare) s ->
      (forall v, filter (same_rank localeCompare v) s
                 = filter (same_rank localeCompare v) available) ->
      s = sort_voices localeCompare available) /\
  match sort_voices localeCompare available with
  | [] => available = [] /\ default_voiceURI localeCompare available = None
  | _ :: _ =>
      exists w, In w available /\
                picked (sort_voices localeCompare available) w /\
                default_voiceURI localeCompare available = Some (voiceURI w)
  end /\
  (voiceSelect p <> None ->
   selectedVoiceURI (loadVoices localeCompare available p)
   = default_voiceURI localeCompare available).
Proof.
  intros Hcmp Huri.
  pose proof (sort_voices_perm localeCompare available) as Hperm.
  split; [exact Hperm|]. split; [now apply sort_voices_english_first|].
  split; [intros v; now apply sort_voices_stable|].
  split; [intros s; now apply sort_voices_unique|].
  split; [|apply loadVoices_selected].
  pose proof (default_voiceURI_picked localeCompare available Huri) as Hpick.
  destruct (sort_voices localeCompare available); trivial.
  split; trivial. now apply Permutation_sym, Permutation_nil in Hperm.
Qed.

Lemma default_voice_policy_witness :
  consistent codeunit_compare /\
  (forall v, In v [samantha_voice; google_voice] -> voiceURI v <> []) /\
  Permutation [samantha_voice; google_voice]
    (sort_voices codeunit_compare [samantha_voice; google_voice]) /\
  StronglySorted (english_first codeunit_compare)
    (sort_voices codeunit_compare [samantha_voice; google_voice]) /\
  (forall v,
      filter (same_rank codeunit_compare v)
        (sort_voices codeunit_compare [samantha_voice; google_voice])
      = filter (same_rank codeunit_compare v)
          [samantha_voice; google_voice]) /\
  (forall s,
      StronglySorted (english_first codeunit_compare) s ->
      (forall v, filter (same_rank codeunit_compare v) s
                 = filter (same_rank codeunit_compare v)
                     [samantha_voice; google_voice]) ->
      s = sort_voices codeunit_compare [samantha_voice; google_voice]) /\
  match sort_voices codeunit_compare [samantha_voice; google_voice] with
  | [] => [samantha_voice; google_voice] = [] /\
          default_voiceURI codeunit_compare [samantha_voice; google_voice]
          = None
  | _ :: _ =>
      exists w, In w [samantha_voice; google_voice] /\
                picked (sort_voices codeunit_compare
                          [samantha_voice; google_voice]) w /\
                default_voiceURI codeunit_compare
                  [samantha_voice; google_voice] = Some (voiceURI w)
  end /\
  (voiceSelect loaded_page <> None ->
   selectedVoiceURI
     (loadVoices codeunit_compare [samantha_voice; google_voice] loaded_page)
   = default_voiceURI codeunit_compare [samantha_voice; google_voice]).
Proof.
  assert (Huri : forall v, In v [samantha_voice; google_voice] ->
                           voiceURI v <> [])
    by (intros v [<- | [<- | []]]; discriminate).
  split; [exact codeunit_compare_consistent|]. split; [exact Huri|].
  exact (default_voice_policy codeunit_compare
           [samantha_voice; google_voice] loaded_page
           codeunit_compare_consistent Huri).
Defined.

(** Two voices with the same name and the same tag stay in the order in
    which the engine listed them, and the first of them is the default. *)
Example equal_names_keep_order :
  let first := mkVoice (lit "Alex") (lit "en-US") (lit "u:first") in
  let second := mkVoice (lit "Alex") (lit "en-US") (lit "u:second") in
  sort_voices codeunit_compare [first; second] = [first; second] /\
  default_voiceURI codeunit_compare [first; second] = Some (lit "u:first").
Proof. vm_compute. split; reflexivity. Qed.

(** C9 as stated fails.  Both voices are tagged [en-US]; the name of one
    carries the marker Enhanced, the name of the other only Google.  The
    source sorts the Google voice first and selects it. *)
Lemma google_marker_preferred :
  default_voiceURI codeunit_compare [samantha_voice; google_voice]
    = Some (lit "urn:google") /\
  ~ stated_policy codeunit_compare [samantha_voice; google_voice]
      (default_voiceURI codeunit_compare [samantha_voice; google_voice]).
Proof.
  split; [vm_compute; reflexivity|].
  unfold stated_policy.
  replace (sort_voices codeunit_compare [samantha_voice; google_voice])
    with [google_voice; samantha_voice] by (vm_compute; reflexivity).
  replace (default_voiceURI codeunit_compare [samantha_voice; google_voice])
    with (Some (lit "urn:google")) by (vm_compute; reflexivity).
  intros (v & Hin & Hsel & Htier).
  replace (existsb (fun x => is_en_US x && premium_marker x)
             [samantha_voice; google_voice]) with true in Htier
    by (vm_compute; reflexivity).
  destruct Hin as [<- | [<- | []]].
  - vm_compute in Hsel. discriminate.
  - vm_compute in Htier. discriminate.
Qed.

(** C10.  While the playing flag is false, [speakNext] returns the state
    unchanged, so a deferred tick that fires then only leaves the list of
    registered timeouts; and the flag is false after [stop()], after the
    advance step that finds the queue exhausted, and after a
    [playFromStart] that found nothing to play. *)
Theorem speakNext_inert (p : player) :
  (isPlaying p = false ->
   speakNext p = p /\
   forall k ms, nth_error (timers p) k = Some (SpeakNextIn ms) ->
     step (TimerFires k) p = Some (set_timers (remove_nth k (timers p)) p)) /\
  isPlaying (stopAll p) = false /\
  (paused (engine p) = false -> (length (queue p) <= currentIndex p)%nat ->
   isPlaying (speakNext p) = false) /\
  (forall text maxChars p',
      playFromStart text maxChars p = Some p' -> queue p' = [] ->
      isPlaying p' = false).
Proof.
  split; [|split; [|split]].
  - intros Hpl. split.
    + unfold speakNext. now rewrite Hpl.
    + intros k ms Hk. cbn [step]. rewrite Hk. unfold speakNext.
      cbn [isPlaying set_timers]. now rewrite Hpl.
  - unfold stopAll. now fields.
  - intros Hpa Hle. unfold speakNext. rewrite Hpa.
    destruct (isPlaying p) eqn:Hpl; simpl; trivial.
    destruct (Nat.leb_spec (length (queue p)) (currentIndex p)); [|lia].
    now fields.
  - intros text maxChars p' Hplay Hq. unfold playFromStart in Hplay.
    destruct (chunkText text maxChars) as [chunks|]; [|discriminate].
    cbn [queue set_queue set_currentIndex] in Hplay.
    destruct (Nat.eqb_spec (length chunks) 0) as [H0|H0];
      injection Hplay as <-; [now fields|].
    exfalso. apply H0. revert Hq. unfold speakNext. fields. cbn [negb].
    destruct (paused _); [fields; now intros ->|].
    destruct (_ <=? _)%nat; fields; now intros ->.
Qed.

Lemma speakNext_inert_witness :
  isPlaying (stopAll stale_tick_page) = false /\
  speakNext (stopAll stale_tick_page) = stopAll stale_tick_page /\
  step (TimerFires 0) (stopAll stale_tick_page)
    = Some (set_timers [] (stopAll stale_tick_page)).
Proof.
  destruct (speakNext_inert (stopAll stale_tick_page)) as [H _].
  split; [reflexivity|]. destruct (H eq_refl) as [H1 H2]. split; [exact H1|].
  exact (H2 0%nat 120%nat eq_refl).
Defined.

(** * Part IV: further properties of the code *)

(** ** Normalization and trimming *)

Lemma trimStart_head (s : jsstring) :
  match trimStart s with [] => True | c :: _ => is_ws c = false end.
Proof.
  induction s as [|c t IH]; simpl; trivial.
  destruct (is_ws c) eqn:E; trivial.
Qed.

Lemma trimStart_fixed (s : jsstring) :
  match s with [] => True | c :: _ => is_ws c = false end -> trimStart s = s.
Proof. destruct s as [|c t]; simpl; trivial. now intros ->. Qed.

Lemma trim_no_edge_space (s : jsstring) : no_edge_space (trim s).
Proof.
  unfold no_edge_space, trim, trimEnd. rewrite rev_involutive.
  split; [|apply trimStart_head].
  destruct (trimStart_split (rev (trimStart s))) as [l [Hl _]].
  apply (f_equal (@rev codeunit)) in Hl.
  rewrite rev_involutive, rev_app_distr in Hl.
  pose proof (trimStart_head s) as Hh. rewrite Hl in Hh.
  destruct (rev (trimStart (rev (trimStart s)))); trivial.
Qed.

Lemma trim_fixed (s : jsstring) : no_edge_space s -> trim s = s.
Proof.
  intros [Hh Hl]. unfold trim, trimEnd.
  rewrite (trimStart_fixed s Hh), (trimStart_fixed (rev s) Hl).
  apply rev_involutive.
Qed.

Lemma visible_nil_head (s : jsstring) :
  visible s = [] -> match s with [] => True | c :: _ => is_ws c = true end.
Proof.
  destruct s as [|c t]; simpl; trivial.
  destruct (is_ws c); simpl; [trivial|discriminate].
Qed.

(** Trimming leaves nothing exactly when there is nothing but white space. *)
Lemma trim_nil_iff (s : jsstring) : trim s = [] <-> visible s = [].
Proof.
  split; intros H.
  - now rewrite <- visible_trim, H.
  - rewrite <- visible_trim in H. apply visible_nil_head in H.
    destruct (trim_no_edge_space s) as [Hh _].
    destruct (trim s); trivial. congruence.
Qed.

Lemma visible_cons (c : codeunit) (s : jsstring) :
  visible (c :: s) = if is_ws c then visible s else c :: visible s.
Proof. unfold visible. simpl. now destruct (is_ws c). Qed.

Lemma replace_crlf_cons2 (c d : codeunit) (r : jsstring) :
  replace_crlf (c :: d :: r)
  = if ((c =? 13) && (d =? 10))%N then 10%N :: replace_crlf r
    else c :: replace_crlf (d :: r).
Proof. reflexivity. Qed.

Lemma visible_replace_crlf (s : jsstring) :
  visible (replace_crlf s) = visible s.
Proof.
  assert (H : forall n s, (length s <= n)%nat ->
                          visible (replace_crlf s) = visible s).
  { clear s. induction n as [|n IH]; intros s Hn.
    - destruct s; simpl in *; [trivial|lia].
    - destruct s as [|c [|d r]]; trivial.
      rewrite replace_crlf_cons2.
      destruct ((c =? 13)%N && (d =? 10)%N) eqn:E.
      + apply andb_true_iff in E. destruct E as [Ec Ed].
        apply N.eqb_eq in Ec, Ed. subst c d.
        rewrite !visible_cons. cbn [is_ws]. simpl.
        apply IH. simpl in Hn. lia.
      + rewrite (visible_cons c (d :: r)), visible_cons.
        rewrite IH by (simpl in *; lia). reflexivity. }
  apply (H (length s)). lia.
Qed.

Lemma visible_clean_text (text : jsstring) :
  visible (clean_text text) = visible text.
Proof. unfold clean_text. now rewrite visible_trim, visible_replace_crlf. Qed.

Lemma clean_text_nil_iff (text : jsstring) :
  clean_text text = [] <-> visible text = [].
Proof.
  unfold clean_text. rewrite trim_nil_iff. now rewrite visible_replace_crlf.
Qed.

(** ** The slices of the chunker *)

(** The end of a slice is the end of the text, or [maxChars] further, or
    just after a break point past the floor. *)
Lemma chunk_end_cases (clean : jsstring) (maxChars i : Z) :
  0 < maxChars -> 0 <= i < jslength clean ->
  chunk_end clean maxChars i = jslength clean \/
  (chunk_end clean maxChars i < jslength clean /\
   (chunk_end clean maxChars i - i = maxChars \/
    201 < chunk_end clean maxChars i - i <= maxChars)).
Proof.
  intros Hm Hi.
  pose proof (chunk_end_bounds clean maxChars i Hm Hi) as [Hb Hd].
  pose proof (proposed_end_bounds clean maxChars i Hm Hi) as [He _].
  revert Hb Hd. unfold chunk_end.
  set (e0 := proposed_end clean maxChars i) in *.
  pose proof (lastBreak_range (slice clean i e0)) as Hlb.
  rewrite length_slice_inside in Hlb by lia.
  destruct (Z.ltb_spec e0 (jslength clean)) as [Hlt|Hge]; simpl.
  - assert (e0 = i + maxChars) by (unfold e0, proposed_end in *; lia).
    destruct (Z.ltb_spec 200 (lastBreak (slice clean i e0))); intros; right; lia.
  - intros. left. lia.
Qed.

Lemma concat_nil_nonempty (pieces : list jsstring) :
  Forall (fun pc => pc <> []) pieces -> concat pieces = [] -> pieces = [].
Proof.
  destruct 1 as [|pc ps Hpc _]; trivial. simpl. intros H.
  apply app_eq_nil in H. destruct H as [H _]. congruence.
Qed.

Lemma chunk_loop_slices (fuel : nat) (clean : jsstring) (maxChars : Z) :
  0 < maxChars ->
  forall (i : Z) (acc : list jsstring),
    0 <= i <= jslength clean -> jslength clean - i <= Z.of_nat fuel ->
    exists pieces,
      chunk_loop fuel clean maxChars i acc
        = Some (acc ++ filter truthy (map trim pieces)) /\
      concat pieces = skipn (Z.to_nat i) clean /\
      Forall (fun pc => pc <> []) pieces /\
      Forall (fun pc => jslength pc = maxChars \/
                        201 < jslength pc <= maxChars)
             (removelast pieces).
Proof.
  intros Hm. induction fuel as [|fuel IH]; intros i acc Hi Hf.
  - exists []. simpl. destruct (Z.ltb_spec i (jslength clean)); [lia|].
    rewrite app_nil_r. repeat split; trivial.
    rewrite skipn_all2; trivial. unfold jslength in *. lia.
  - cbn [chunk_loop]. destruct (Z.ltb_spec i (jslength clean)) as [Hlt|Hge].
    + destruct (chunk_end_bounds clean maxChars i Hm ltac:(lia)) as [He Hd].
      pose proof (chunk_end_cases clean maxChars i Hm ltac:(lia)) as Hcases.
      set (e := chunk_end clean maxChars i) in *.
      destruct (IH e (if truthy (trim (slice clean i e))
                      then acc ++ [trim (slice clean i e)] else acc)
                  ltac:(lia) ltac:(lia)) as (ps & Hrun & Hcat & Hne & Hfloor).
      assert (Hlen : jslength (slice clean i e) = e - i)
        by (apply length_slice_inside; lia).
      exists (slice clean i e :: ps). split; [|split; [|split]].
      * rewrite Hrun. cbn [map filter].
        destruct (truthy (trim (slice clean i e))); trivial.
        now rewrite <- app_assoc.
      * cbn [concat]. rewrite Hcat. apply slice_skipn; lia.
      * constructor; trivial. intros E. rewrite E in Hlen.
        unfold jslength in Hlen. simpl in Hlen. lia.
      * destruct ps as [|pc ps']; [constructor|].
        change (removelast (slice clean i e :: pc :: ps'))
          with (slice clean i e :: removelast (pc :: ps')).
        constructor; trivial. rewrite Hlen.
        destruct Hcases as [Hend | [_ Hc]]; trivial.
        exfalso. rewrite Hend in Hcat.
        rewrite skipn_all2 in Hcat by (unfold jslength; lia).
        apply concat_nil_nonempty in Hcat; [discriminate|trivial].
    + exists []. rewrite app_nil_r. repeat split; trivial.
      simpl. rewrite skipn_all2; trivial. unfold jslength in *. lia.
Qed.

(** X1.  For every positive [maxChars] the chunker returns, and every chunk
    is non-empty and neither starts nor ends with white space. *)
Theorem chunks_are_good_segments (text : jsstring) (maxChars : Z) :
  0 < maxChars ->
  exists chunks,
    chunkText text maxChars = Some chunks /\ Forall good_segment chunks.
Proof.
  intros Hm. destruct (chunkText_pieces text maxChars Hm) as (ps & Hr & _).
  eexists. split; [exact Hr|].
  clear Hr. induction ps as [|pc ps IH]; simpl; [constructor|].
  destruct (truthy (trim pc)) eqn:E; trivial.
  constructor; trivial. split; trivial. apply trim_no_edge_space.
Qed.

Lemma chunks_are_good_segments_witness :
  0 < 4 /\
  exists chunks,
    chunkText (lit "  a. b. c. ") 4 = Some chunks /\
    Forall good_segment chunks.
Proof.
  split; [lia|]. apply (chunks_are_good_segments (lit "  a. b. c. ") 4). lia.
Defined.

(** X2.  A text without any character that is not white space gives the
    empty sequence for every [maxChars], and for a positive [maxChars] no
    other text does. *)
Theorem empty_result_iff_blank (text : jsstring) :
  (visible text = [] -> forall maxChars, chunkText text maxChars = Some []) /\
  (forall maxChars, 0 < maxChars ->
     chunkText text maxChars = Some [] -> visible text = []).
Proof.
  split.
  - intros Hv maxChars. apply clean_text_nil_iff in Hv.
    unfold chunkText, chunkText_fuel. now rewrite Hv.
  - intros maxChars Hm Hr.
    destruct (chunkText_pieces text maxChars Hm) as (ps & Hc & Hcat & _).
    rewrite Hr in Hc. injection Hc as Hc.
    rewrite <- visible_clean_text, <- Hcat, <- visible_kept_pieces, <- Hc.
    reflexivity.
Qed.

Lemma empty_result_iff_blank_witness :
  visible (lit "  ") = [] /\
  chunkText (lit "  ") 0 = Some [] /\
  0 < 3 /\
  (chunkText (lit "  ") 3 = Some [] -> visible (lit "  ") = []).
Proof.
  destruct (empty_result_iff_blank (lit "  ")) as [H1 H2].
  split; [reflexivity|]. split; [exact (H1 eq_refl 0)|].
  split; [lia|]. apply H2. lia.
Defined.

(** X3.  Normalization and chunking keep the content of the raw text: for
    every positive [maxChars], the characters of the chunks that are not
    white space are those of the text, in the same order. *)
Theorem chunks_keep_visible_text (text : jsstring) (maxChars : Z) :
  0 < maxChars ->
  exists chunks,
    chunkText text maxChars = Some chunks /\
    visible (concat chunks) = visible text.
Proof.
  intros Hm. destruct (chunkText_pieces text maxChars Hm) as (ps & Hc & Hcat & _).
  eexists. split; [exact Hc|].
  now rewrite visible_kept_pieces, Hcat, visible_clean_text.
Qed.

Lemma chunks_keep_visible_text_witness :
  0 < 3 /\
  exists chunks,
    chunkText (lit " ab cd. ef ") 3 = Some chunks /\
    visible (concat chunks) = visible (lit " ab cd. ef ").
Proof.
  split; [lia|]. apply (chunks_keep_visible_text (lit " ab cd. ef ") 3). lia.
Defined.

(** X4.  A text whose clean form is not empty and fits into [maxChars] is
    not cut: the result is the clean text as the only chunk. *)
Theorem short_text_single_chunk (text : jsstring) (maxChars : Z) :
  0 < jslength (clean_text text) <= maxChars ->
  chunkText text maxChars = Some [clean_text text].
Proof.
  intros [Hpos Hfit]. unfold chunkText, chunkText_fuel.
  pose proof (length_clean_text text) as Hlen.
  set (clean := clean_text text) in *.
  assert (Ht : truthy clean = true).
  { destruct clean; [unfold jslength in Hpos; simpl in Hpos; lia|reflexivity]. }
  rewrite Ht. cbn [negb].
  destruct (length text) as [|fuel] eqn:Et.
  { unfold jslength in Hpos. lia. }
  cbn [chunk_loop]. destruct (Z.ltb_spec 0 (jslength clean)); [|lia].
  assert (He : chunk_end clean maxChars 0 = jslength clean).
  { unfold chunk_end, proposed_end. rewrite Z.min_r by lia.
    now rewrite Z.ltb_irrefl. }
  rewrite He.
  assert (Hs : slice clean 0 (jslength clean) = clean).
  { rewrite slice_inside by lia. simpl. unfold jslength.
    rewrite Z.sub_0_r, Nat2Z.id. apply firstn_all. }
  rewrite Hs.
  assert (Hfix : trim clean = clean)
    by (apply trim_fixed; unfold clean, clean_text; apply trim_no_edge_space).
  rewrite Hfix, Ht. cbn [app].
  destruct fuel; cbn [chunk_loop]; now rewrite Z.ltb_irrefl.
Qed.

Lemma short_text_single_chunk_witness :
  0 < jslength (clean_text (lit " One sentence. ")) <= 25 /\
  chunkText (lit " One sentence. ") 25
    = Some [clean_text (lit " One sentence. ")].
Proof.
  assert (H : 0 < jslength (clean_text (lit " One sentence. ")) <= 25)
    by (vm_compute; split; [reflexivity | discriminate]).
  split; [exact H|]. exact (short_text_single_chunk _ 25 H).
Defined.

(** X5.  For every positive [maxChars] the text is cut into slices of which
    every one but the last is exactly [maxChars] long or longer than 201
    code units (a cut at a break point past the floor); so with
    [maxChars <= 201] no break point is ever used and every slice but the
    last has exactly [maxChars] code units. *)
Theorem no_tiny_slices (text : jsstring) (maxChars : Z) :
  0 < maxChars ->
  exists pieces,
    chunkText text maxChars = Some (filter truthy (map trim pieces)) /\
    concat pieces = clean_text text /\
    Forall (fun pc => jslength pc = maxChars \/
                      201 < jslength pc <= maxChars)
           (removelast pieces) /\
    (maxChars <= 201 ->
     Forall (fun pc => jslength pc = maxChars) (removelast pieces)).
Proof.
  intros Hm. unfold chunkText, chunkText_fuel.
  destruct (truthy (clean_text text)) eqn:E; cbn [negb].
  - pose proof (length_clean_text text) as Hl.
    destruct (chunk_loop_slices (length text) (clean_text text) maxChars Hm 0 [])
      as (ps & Hrun & Hcat & _ & Hfloor);
      [unfold jslength; lia | unfold jslength; lia |].
    exists ps. repeat split; trivial.
    intros Hsmall. eapply Forall_impl; [|exact Hfloor].
    intros pc Hpc. cbv beta in Hpc. lia.
  - exists []. apply truthy_false in E. rewrite E. simpl.
    repeat split; trivial; constructor.
Qed.

Lemma no_tiny_slices_witness :
  0 < 25 /\
  exists pieces,
    chunkText (lit "One sentence here. Another one follows. ") 25
      = Some (filter truthy (map trim pieces)) /\
    concat pieces
      = clean_text (lit "One sentence here. Another one follows. ") /\
    Forall (fun pc => jslength pc = 25 \/ 201 < jslength pc <= 25)
           (removelast pieces) /\
    (25 <= 201 ->
     Forall (fun pc => jslength pc = 25) (removelast pieces)).
Proof.
  split; [lia|].
  apply (no_tiny_slices (lit "One sentence here. Another one follows. ") 25).
  lia.
Defined.

(** ** A session with any mix of successes and failures *)

Lemma failure_is_engine_event (evs : list event) :
  forallb failure_event evs = true -> forallb engine_event evs = true.
Proof.
  induction evs as [|ev evs IH]; simpl; trivial.
  intros H. apply andb_true_iff in H. destruct H as [Hev H].
  rewrite (IH H). now destruct ev.
Qed.

Lemma finished_quiet (p0 : player) (q : list jsstring) (len r : nat)
    (p : player) :
  finished p0 q len r p -> quiet p.
Proof.
  intros (_ & Hpe & Htm & _) ev Hev.
  destruct ev; try discriminate; cbn [step]; rewrite ?Hpe, ?Htm; trivial.
  now destruct k.
Qed.

(** The step of [session_step], with the end of a request as well. *)
Lemma session_step_any (p0 : player) (q : list jsstring) (len r : nat)
    (ev : event) (p p' : player) :
  session_inv p0 q len r p -> engine_event ev = true ->
  step ev p = Some p' ->
  session_inv p0 q (S len) (r + (if is_resolution ev then 1 else 0)) p'.
Proof.
  intros Hinv Hev Hstep.
  destruct ev; try discriminate;
    [exact (session_step p0 q len r EngineStart p p' Hinv eq_refl Hstep)
    |
    |exact (session_step p0 q len r EngineError p p' Hinv eq_refl Hstep)
    |exact (session_step p0 q len r (TimerFires k) p p' Hinv eq_refl Hstep)].
  destruct Hinv as (Hq & Hpa & Hpr & Hphase).
  cbn [is_resolution]. cbn [step] in Hstep.
  destruct Hphase as [W | [T | D]].
  - destruct W as (Hpl & (u & Hpe & Hu) & Hci & Htm & Hiss & Herr & Hlen).
    rewrite Hpe, Hpa in Hstep. cbn in Hstep.
    destruct (started (engine p)) eqn:Est; cbn in Hstep; [|discriminate].
    injection Hstep as <-. unfold onend.
    split; [|split; [|split]]; fields; rewrite ?present_if; trivial.
    right; left. unfold ticking. fields. rewrite Hpe, Htm. cbn [tl app].
    repeat split; eauto; try lia.
    rewrite Hiss. f_equal. f_equal. lia.
  - destruct T as (_ & Hpe & _). rewrite Hpe in Hstep. discriminate.
  - destruct D as (_ & Hpe & _). rewrite Hpe in Hstep. discriminate.
Qed.

(** What an event without operator does to the progress label. *)
Lemma progressText_step (ev : event) (p p' : player) :
  engine_event ev = true -> step ev p = Some p' ->
  present (progressText p') = present (progressText p) /\
  (isPlaying p = true -> isPlaying p' = false ->
   progressText p'
   = if present (progressText p) then Some (progress p') else None).
Proof.
  assert (Hsn : forall s,
    present (progressText (speakNext s)) = present (progressText s) /\
    (isPlaying s = true -> isPlaying (speakNext s) = false ->
     progressText (speakNext s)
     = if present (progressText s) then Some (progress (speakNext s))
       else None)).
  { intros s. unfold speakNext.
    destruct (isPlaying s) eqn:Hpl; cbn [negb]; [|split; [trivial|congruence]].
    destruct (paused (engine s)); [split; [trivial|congruence]|].
    destruct (_ <=? _)%nat.
    - split; fields; [now destruct (progressText s)|].
      intros _ _. unfold progress. fields. reflexivity.
    - split; fields; trivial. congruence. }
  intros Hev Hstep. destruct ev; try discriminate; cbn [step] in Hstep.
  - destruct (_ && _); [|discriminate]. injection Hstep as <-.
    unfold onstart. split; fields; [now destruct (progressText p)|].
    intros ->. discriminate.
  - destruct (_ && _); [|discriminate]. injection Hstep as <-.
    unfold onend. split; fields; [now destruct (progressText p)|].
    intros ->. discriminate.
  - destruct (truthy_list _); [|discriminate]. injection Hstep as <-.
    unfold onerror. split; fields; trivial.
    intros ->. discriminate.
  - destruct (nth_error (timers p) k) as [t|]; [|discriminate].
    injection Hstep as <-.
    set (s := set_timers (remove_nth k (timers p)) p).
    change (progressText p) with (progressText s).
    change (isPlaying p) with (isPlaying s).
    destruct t; [apply Hsn|].
    unfold resume_nudge. destruct (_ && _); [apply Hsn|].
    split; [trivial|congruence].
Qed.

Lemma label_step (p0 : player) (q : list jsstring) (len r : nat)
    (ev : event) (p p' : player) :
  session_inv p0 q len r p -> label_inv p0 (length q) p ->
  engine_event ev = true -> step ev p = Some p' ->
  label_inv p0 (length q) p'.
Proof.
  intros Hinv [Hpres Hshow] Hev Hstep.
  pose proof (session_step_any _ _ _ _ _ _ _ Hinv Hev Hstep) as Hinv'.
  destruct (progressText_step _ _ _ Hev Hstep) as [Hp Hfresh].
  split; [congruence|]. intros Hpl'.
  destruct (isPlaying p) eqn:Hpl.
  - unfold shows_all. rewrite (Hfresh eq_refl Hpl'), Hpres.
    destruct Hinv' as (Hq & _ & _ & [W | [T | D]]).
    + destruct W as (Hpl1 & _). congruence.
    + destruct T as (Hpl1 & _). congruence.
    + destruct D as (_ & _ & _ & Hci & _). unfold progress.
      rewrite Hq, Hci, Nat.min_id. reflexivity.
  - exfalso. destruct Hinv as (_ & _ & _ & [W | [T | D]]).
    + destruct W as (Hpl1 & _). congruence.
    + destruct T as (Hpl1 & _). congruence.
    + apply finished_quiet in D. rewrite (D ev Hev) in Hstep. discriminate.
Qed.

Lemma session_run_any (p0 : player) (q : list jsstring) (evs : list event) :
  forall (len r : nat) (p p' : player),
    session_inv p0 q len r p -> label_inv p0 (length q) p ->
    forallb engine_event evs = true -> run evs p = Some p' ->
    session_inv p0 q (len + length evs) (r + resolutions evs) p' /\
    label_inv p0 (length q) p'.
Proof.
  induction evs as [|ev evs IH]; intros len r p p' Hinv Hlab Hf Hrun.
  - injection Hrun as <-. unfold resolutions. simpl.
    now rewrite !Nat.add_0_r.
  - simpl in Hf. apply andb_true_iff in Hf. destruct Hf as [Hev Hf].
    cbn [run] in Hrun. destruct (step ev p) as [p1|] eqn:Hstep; [|discriminate].
    pose proof (session_step_any _ _ _ _ _ _ _ Hinv Hev Hstep) as Hinv1.
    pose proof (label_step _ _ _ _ _ _ _ Hinv Hlab Hev Hstep) as Hlab1.
    specialize (IH _ _ _ _ Hinv1 Hlab1 Hf Hrun).
    unfold resolutions in *. cbn [filter length].
    replace (len + S (length evs))%nat with (S len + length evs)%nat by lia.
    destruct (is_resolution ev); cbn [length];
      [replace (r + S (length (filter is_resolution evs)))%nat
         with (r + 1 + length (filter is_resolution evs))%nat by lia
      |replace (r + length (filter is_resolution evs))%nat
         with (r + 0 + length (filter is_resolution evs))%nat by lia];
      exact IH.
Qed.

Lemma label_start (p0 p1 : player) (text : jsstring) (maxChars : Z) :
  paused (engine p0) = false ->
  playFromStart text maxChars p0 = Some p1 -> queue p1 <> [] ->
  label_inv p0 (length (queue p1)) p1.
Proof.
  intros Hpa Hplay Hne. unfold playFromStart in Hplay.
  destruct (chunkText text maxChars) as [chunks|]; [|discriminate].
  cbn [queue set_queue set_currentIndex] in Hplay.
  destruct (Nat.eqb_spec (length chunks) 0) as [H0|H0].
  - injection Hplay as <-. exfalso. apply Hne. fields.
    now apply length_zero_iff_nil.
  - injection Hplay as <-. unfold speakNext. fields. rewrite Hpa. cbn [negb].
    destruct (Nat.leb_spec (length chunks) 0); [lia|].
    split; fields; [now destruct (progressText p0)|congruence].
Qed.

(** X6.  A session started while no timeout is registered and the engine
    is not paused, and then left to the engine and the timeouts, whatever
    mix of successes and failures the engine reports: at every point at most
    one request is outstanding, the cursor is within the queue, the
    segments are issued in order and once each, and the run is at most
    three events per segment long; the playing flag is cleared only after
    as many resolved requests as there are segments, with the status on
    Done and the progress label on [n / n]; a state in which nothing more
    can happen is such an end, and from every point some continuation
    reaches it. *)
Theorem unattended_session (p0 p1 : player) (text : jsstring) (maxChars : Z)
    (evs : list event) (p : player) :
  timers p0 = [] -> paused (engine p0) = false ->
  playFromStart text maxChars p0 = Some p1 -> queue p1 <> [] ->
  forallb engine_event evs = true -> run evs p1 = Some p ->
  (length (pending (engine p)) <= 1)%nat /\
  (currentIndex p <= length (queue p1))%nat /\
  queue p = queue p1 /\
  (exists k, issued (engine p) = issued (engine p0) ++ firstn k (queue p1)) /\
  (length evs <= 3 * length (queue p1))%nat /\
  (isPlaying p = false ->
   resolutions evs = length (queue p1) /\ session_done p0 p1 p /\
   shows_all p0 p (length (queue p1))) /\
  (quiet p -> isPlaying p = false) /\
  (exists evs' p',
      forallb engine_event evs' = true /\ run evs' p = Some p' /\
      isPlaying p' = false).
Proof.
  intros Htm Hpa Hplay Hne Hf Hrun.
  pose proof (session_start _ _ _ _ Htm Hpa Hplay Hne) as Hinv0.
  pose proof (label_start _ _ _ _ Hpa Hplay Hne) as Hlab0.
  destruct (session_run_any _ _ _ _ _ _ _ Hinv0 Hlab0 Hf Hrun) as [Hinv Hlab].
  cbn [Nat.add] in Hinv.
  pose proof (session_len_bound _ _ _ _ _ Hinv) as Hlen.
  destruct (session_completes p0 (queue p1) (3 * length (queue p1)) _ _ p Hinv
              ltac:(lia)) as (evs' & p' & Hf' & Hrun' & Hfin').
  assert (Hext : exists evs' p',
             forallb engine_event evs' = true /\ run evs' p = Some p' /\
             isPlaying p' = false).
  { exists evs', p'. split; [now apply failure_is_engine_event|].
    split; trivial. apply Hfin'. }
  destruct Hlab as [_ Hshow].
  destruct Hinv as (Hq & _ & _ & [W | [T | D]]).
  - destruct W as (Hpl & (u & Hpe & _) & Hci & _ & Hiss & _).
    split; [rewrite Hpe; simpl; lia|]. split; [lia|]. split; [trivial|].
    split; [eauto|]. split; [trivial|]. split; [congruence|].
    split; trivial. intros Hquiet.
    specialize (Hquiet EngineError eq_refl). cbn [step] in Hquiet.
    rewrite Hpe in Hquiet. discriminate.
  - destruct T as (Hpl & Hpe & (ms & Htk) & Hci & Hiss & _).
    split; [rewrite Hpe; simpl; lia|]. split; [lia|]. split; [trivial|].
    split; [eauto|]. split; [trivial|]. split; [congruence|].
    split; trivial. intros Hquiet.
    specialize (Hquiet (TimerFires 0) eq_refl). cbn [step] in Hquiet.
    rewrite Htk in Hquiet. discriminate.
  - pose proof D as (Hpl & Hpe & _ & Hci & Hiss & Hres & _).
    split; [rewrite Hpe; simpl; lia|]. split; [lia|]. split; [trivial|].
    split; [exists (length (queue p1)); now rewrite firstn_all|].
    split; [trivial|]. split; [|split; trivial].
    intros _. split; [trivial|]. split; [|now apply Hshow].
    now apply session_done_of_finished in D.
Qed.

Lemma unattended_session_witness :
  timers loaded_page = [] /\ paused (engine loaded_page) = false /\
  playFromStart (lit "a. b. c.") 4 loaded_page = Some two_segments_queued /\
  run [EngineStart; EngineEnd; TimerFires 0;
       EngineStart; EngineError; TimerFires 0] two_segments_queued
    = Some two_segments_done /\
  isPlaying two_segments_done = false /\
  resolutions [EngineStart; EngineEnd; TimerFires 0;
               EngineStart; EngineError; TimerFires 0] = 2%nat /\
  session_done loaded_page two_segments_queued two_segments_done /\
  shows_all loaded_page two_segments_done 2.
Proof.
  assert (Hplay : playFromStart (lit "a. b. c.") 4 loaded_page
                  = Some two_segments_queued) by (vm_compute; reflexivity).
  assert (Hrun : run [EngineStart; EngineEnd; TimerFires 0;
                      EngineStart; EngineError; TimerFires 0]
                   two_segments_queued = Some two_segments_done)
    by (vm_compute; reflexivity).
  split; [reflexivity|]. split; [reflexivity|]. split; [exact Hplay|].
  split; [exact Hrun|]. split; [reflexivity|].
  destruct (unattended_session loaded_page two_segments_queued
              (lit "a. b. c.") 4
              [EngineStart; EngineEnd; TimerFires 0;
               EngineStart; EngineError; TimerFires 0] two_segments_done
              eq_refl eq_refl Hplay ltac:(discriminate) eq_refl Hrun)
    as (_ & _ & _ & _ & _ & Hdone & _).
  exact (Hdone eq_refl).
Defined.

(** ** What the engine is asked to speak *)

Lemma chunk_loop_good (clean : jsstring) (maxChars : Z) (fuel : nat) :
  forall (i : Z) (acc chunks : list jsstring),
    Forall good_segment acc ->
    chunk_loop fuel clean maxChars i acc = Some chunks ->
    Forall good_segment chunks.
Proof.
  induction fuel as [|fuel IH]; intros i acc chunks Hacc Hrun;
    cbn [chunk_loop] in Hrun; destruct (i <? jslength clean);
    try discriminate; try (injection Hrun as <-; exact Hacc).
  eapply IH; [|exact Hrun].
  destruct (truthy (trim _)) eqn:E; trivial.
  apply Forall_app. split; trivial. constructor; [|constructor].
  split; trivial. apply trim_no_edge_space.
Qed.

(** Whatever [maxChars] is, a result of the chunker holds good segments. *)
Lemma chunkText_good (text : jsstring) (maxChars : Z)
    (chunks : list jsstring) :
  chunkText text maxChars = Some chunks -> Forall good_segment chunks.
Proof.
  unfold chunkText, chunkText_fuel. destruct (negb _).
  - intros H. injection H as <-. constructor.
  - apply chunk_loop_good. constructor.
Qed.

Lemma requests_sound_frame (p p' : player) :
  queue p' = queue p -> pending (engine p') = pending (engine p) ->
  issued (engine p') = issued (engine p) ->
  requests_sound p -> requests_sound p'.
Proof. unfold requests_sound. now intros -> -> ->. Qed.

Lemma requests_sound_speakNext (p : player) :
  requests_sound p -> requests_sound (speakNext p).
Proof.
  intros H. unfold speakNext.
  destruct (negb (isPlaying p)); trivial.
  destruct (paused (engine p)); trivial.
  destruct (Nat.leb_spec (length (queue p)) (currentIndex p)) as [Hle|Hlt].
  - eapply requests_sound_frame; [| | |exact H]; now fields.
  - destruct H as (Hq & Hpe & Hiss).
    assert (Hin : In (nth (currentIndex p) (queue p) []) (queue p))
      by (now apply nth_In).
    unfold requests_sound. fields. split; [trivial|]. split.
    + apply Forall_app. split; trivial. now repeat constructor.
    + apply Forall_app. split; trivial. constructor; [|constructor].
      rewrite Forall_forall in Hq. now apply Hq.
Qed.

Lemma requests_sound_resolve (p : player) (f : player -> player) :
  (forall s, queue (f s) = queue s /\ engine (f s) = engine s) ->
  requests_sound p ->
  requests_sound (f (set_engine (synth_resolve (engine p)) p)).
Proof.
  intros Hf (Hq & Hpe & Hiss).
  destruct (Hf (set_engine (synth_resolve (engine p)) p)) as [Eq Ee].
  unfold requests_sound. rewrite Eq, Ee. fields.
  split; [trivial|]. split; [|trivial].
  destruct (pending (engine p)); trivial. now inversion Hpe.
Qed.

Lemma requests_sound_step (ev : event) (p p' : player) :
  requests_sound p -> step ev p = Some p' -> requests_sound p'.
Proof.
  intros H Hstep. destruct ev; cbn [step] in Hstep.
  - unfold playFromStart in Hstep.
    destruct (chunkText text maxChars) as [chunks|] eqn:Ec; [|discriminate].
    apply chunkText_good in Ec. destruct H as (_ & _ & Hiss).
    assert (H0 : forall f : player -> player,
               (forall s, queue (f s) = queue s /\ engine (f s) = engine s) ->
               requests_sound
                 (f (set_currentIndex 0
                       (set_queue chunks
                          (set_engine (synth_cancel (engine p)) p))))).
    { intros f Hf.
      destruct (Hf (set_currentIndex 0
                      (set_queue chunks
                         (set_engine (synth_cancel (engine p)) p))))
        as [Eq Ee].
      unfold requests_sound. rewrite Eq, Ee. fields.
      split; [trivial|]. split; [constructor|trivial]. }
    destruct (_ =? _)%nat; injection Hstep as <-.
    + apply (H0 (fun s => setProgress
                            (setStatus NothingToPlay (set_isPlaying false s)))).
      intros s. split; now fields.
    + apply requests_sound_speakNext.
      apply (H0 (fun s => setProgress
                            (setStatus Queued (set_isPlaying true s)))).
      intros s. split; now fields.
  - injection Hstep as <-. unfold pause. destruct (_ && _); trivial.
    eapply requests_sound_frame; [| | |exact H]; now fields.
  - injection Hstep as <-. unfold resume. destruct (paused (engine p)).
    + eapply requests_sound_frame; [| | |exact H]; now fields.
    + destruct (_ && _); trivial. now apply requests_sound_speakNext.
  - injection Hstep as <-. destruct H as (_ & _ & Hiss).
    unfold requests_sound, stopAll. fields. repeat split; trivial; constructor.
  - destruct (_ && _); [|discriminate]. injection Hstep as <-.
    eapply requests_sound_frame; [| | |exact H]; unfold onstart; now fields.
  - destruct (_ && _); [|discriminate]. injection Hstep as <-.
    apply (requests_sound_resolve p onend); trivial.
    intros s. unfold onend. split; now fields.
  - destruct (truthy_list _); [|discriminate]. injection Hstep as <-.
    apply (requests_sound_resolve p onerror); trivial.
    intros s. unfold onerror. split; now fields.
  - destruct (nth_error (timers p) k) as [t|]; [|discriminate].
    injection Hstep as <-.
    assert (H' : requests_sound (set_timers (remove_nth k (timers p)) p))
      by (eapply requests_sound_frame; [| | |exact H]; reflexivity).
    destruct t.
    + now apply requests_sound_speakNext.
    + unfold resume_nudge. destruct (_ && _); trivial.
      now apply requests_sound_speakNext.
Qed.

(** X7.  Along every run of the page, with any events in any order, the
    queue holds only non-empty trimmed segments, every outstanding request
    is for a segment of the current queue, and nothing but such a segment
    was ever handed to [speak]; in particular the engine is never asked to
    speak an empty text. *)
Theorem requests_sound_run (evs : list event) (p p' : player) :
  requests_sound p -> run evs p = Some p' ->
  requests_sound p' /\
  Forall (fun t => t <> []) (issued (engine p')).
Proof.
  revert p. induction evs as [|ev evs IH]; intros p H Hrun; cbn [run] in Hrun.
  - injection Hrun as <-. split; trivial.
    destruct H as (_ & _ & Hiss). eapply Forall_impl; [|exact Hiss].
    intros t [Ht _] ->. discriminate.
  - destruct (step ev p) as [p1|] eqn:E; [|discriminate].
    eapply IH; [|exact Hrun]. eapply requests_sound_step; eauto.
Qed.

Lemma requests_sound_run_witness :
  requests_sound loaded_page /\
  run [Play (lit "a") 5; EngineError] loaded_page = Some stale_tick_page /\
  requests_sound stale_tick_page /\
  Forall (fun t => t <> []) (issued (engine stale_tick_page)).
Proof.
  assert (H0 : requests_sound loaded_page) by (repeat split; constructor).
  assert (Hrun : run [Play (lit "a") 5; EngineError] loaded_page
                 = Some stale_tick_page) by (vm_compute; reflexivity).
  split; [exact H0|]. split; [exact Hrun|].
  exact (requests_sound_run _ _ _ H0 Hrun).
Defined.

(** ** Not playing *)

Lemma idle_step (ev : event) (p p' : player) :
  isPlaying p = false -> pending (engine p) = [] -> is_play ev = false ->
  step ev p = Some p' ->
  isPlaying p' = false /\ pending (engine p') = [] /\
  issued (engine p') = issued (engine p).
Proof.
  intros Hpl Hpe Hev Hstep.
  assert (Hsn : forall s, isPlaying s = false -> speakNext s = s)
    by (intros s Hs; unfold speakNext; now rewrite Hs).
  destruct ev; try discriminate; cbn [step] in Hstep;
    rewrite ?Hpe in Hstep; try discriminate.
  - injection Hstep as <-. unfold pause.
    destruct (_ && _); fields; auto.
  - injection Hstep as <-. unfold resume. rewrite Hpl.
    destruct (paused (engine p)); cbn [andb]; fields; auto.
  - injection Hstep as <-. unfold stopAll. fields. auto.
  - destruct (nth_error (timers p) k) as [t|]; [|discriminate].
    injection Hstep as <-. unfold resume_nudge. cbn [isPlaying set_timers].
    rewrite Hpl. cbn [andb]. destruct t; [rewrite Hsn by exact Hpl|]; auto.
Qed.

(** X8.  While the playing flag is false and nothing is outstanding (as it
    is after [stop()], after Done and after a Play of a blank text), no
    event but a new Play makes the controller speak: whatever the operator,
    the engine and the timeouts do, the flag stays false, no request is
    outstanding and nothing is handed to [speak]. *)
Theorem silent_until_play (evs : list event) (p p' : player) :
  isPlaying p = false -> pending (engine p) = [] ->
  forallb (fun ev => negb (is_play ev)) evs = true ->
  run evs p = Some p' ->
  isPlaying p' = false /\ pending (engine p') = [] /\
  issued (engine p') = issued (engine p).
Proof.
  revert p. induction evs as [|ev evs IH]; intros p Hpl Hpe Hf Hrun;
    cbn [run] in Hrun.
  - injection Hrun as <-. auto.
  - simpl in Hf. apply andb_true_iff in Hf. destruct Hf as [Hev Hf].
    apply negb_true_iff in Hev.
    destruct (step ev p) as [p1|] eqn:E; [|discriminate].
    destruct (idle_step _ _ _ Hpl Hpe Hev E) as (Hpl1 & Hpe1 & Hiss1).
    destruct (IH _ Hpl1 Hpe1 Hf Hrun) as (H1 & H2 & H3).
    repeat split; trivial. congruence.
Qed.

Lemma silent_until_play_witness :
  isPlaying stopped_page = false /\
  pending (engine stopped_page) = [] /\
  run [Resume; TimerFires 0; Pause] stopped_page = Some still_stopped_page /\
  isPlaying still_stopped_page = false /\
  pending (engine still_stopped_page) = [] /\
  issued (engine still_stopped_page) = issued (engine stopped_page).
Proof.
  assert (Hrun : run [Resume; TimerFires 0; Pause] stopped_page
                 = Some still_stopped_page) by (vm_compute; reflexivity).
  split; [reflexivity|]. split; [reflexivity|]. split; [exact Hrun|].
  exact (silent_until_play [Resume; TimerFires 0; Pause] stopped_page
           still_stopped_page eq_refl eq_refl eq_refl Hrun).
Defined.

(** ** Pause and resume *)

Lemma nth_error_last {A} (l : list A) (x : A) :
  nth_error (l ++ [x]) (length l) = Some x.
Proof. induction l; simpl; trivial. Qed.

Lemma remove_nth_last {A} (l : list A) (x : A) :
  remove_nth (length l) (l ++ [x]) = l.
Proof. induction l as [|a l IH]; simpl; trivial. now rewrite IH. Qed.

(** X9.  Pausing while the engine speaks, resuming, and letting the check
    that [resume()] schedules fire brings the page back to where it was,
    with the status label on Playing: the engine, the queue, the cursor and
    the registered timeouts are as before, and the check issues nothing. *)
Theorem pause_resume_round_trip (p : player) :
  speaking (engine p) = true -> paused (engine p) = false ->
  run [Pause; Resume; TimerFires (length (timers p))] p
  = Some (setStatus Playing p).
Proof.
  intros Hs Hp.
  destruct p as [vs q ci pl sel st pr vsel [sp pa pe sta iss] tm].
  cbn [engine speaking paused] in Hs, Hp. subst sp pa.
  cbn [run step]. unfold pause. cbn [engine speaking paused andb negb].
  unfold resume. rewrite !setStatus_eq.
  cbn [engine paused set_engine set_statusText synth_pause synth_resume
       statusText setTimeout timers set_timers speaking pending started
       issued voices queue currentIndex isPlaying selectedVoiceURI
       progressText voiceSelect].
  rewrite nth_error_last, remove_nth_last.
  unfold resume_nudge.
  cbn [isPlaying engine speaking paused set_timers andb negb].
  rewrite Bool.andb_false_r. cbn [andb].
  now destruct st.
Qed.

Lemma pause_resume_round_trip_witness :
  speaking (engine two_segments_queued) = true /\
  paused (engine two_segments_queued) = false /\
  run [Pause; Resume; TimerFires (length (timers two_segments_queued))]
      two_segments_queued
  = Some (setStatus Playing two_segments_queued).
Proof.
  split; [reflexivity|]. split; [reflexivity|].
  exact (pause_resume_round_trip two_segments_queued eq_refl eq_refl).
Defined.

(** ** Starting a playback *)

(** X10.  For every positive [maxChars], [playFromStart] returns in every
    state.  It drops whatever was outstanding at the engine, installs the
    chunks with the cursor at 0 and shows [0 / n]; it keeps the registered
    timeouts and the paused flag of the engine.  With no chunk it leaves
    the controller not playing, nothing outstanding and the status on
    "Nothing to play"; otherwise the status is Queued, and the first chunk
    is the only outstanding request unless the engine is paused, in which
    case nothing is issued. *)
Theorem playFromStart_outcome (text : jsstring) (maxChars : Z) (p : player) :
  0 < maxChars ->
  exists chunks p1,
    chunkText text maxChars = Some chunks /\
    playFromStart text maxChars p = Some p1 /\
    queue p1 = chunks /\ currentIndex p1 = 0%nat /\
    timers p1 = timers p /\ paused (engine p1) = paused (engine p) /\
    progressText p1
      = (if present (progressText p) then Some (0%nat, length chunks)
         else None) /\
    match chunks with
    | [] =>
        isPlaying p1 = false /\ pending (engine p1) = [] /\
        issued (engine p1) = issued (engine p) /\
        statusText p1
          = (if present (statusText p) then Some NothingToPlay else None)
    | first :: _ =>
        isPlaying p1 = true /\
        statusText p1 = (if present (statusText p) then Some Queued else None) /\
        if paused (engine p)
        then pending (engine p1) = [] /\
             issued (engine p1) = issued (engine p)
        else map utext (pending (engine p1)) = [first] /\
             issued (engine p1) = issued (engine p) ++ [first]
    end.
Proof.
  intros Hm. destruct (chunkText_pieces text maxChars Hm) as (ps & Hc & _).
  set (chunks := filter truthy (map trim ps)) in *.
  unfold playFromStart. rewrite Hc.
  cbn [queue set_queue set_currentIndex].
  destruct chunks as [|first rest] eqn:E; cbn [length Nat.eqb].
  - eexists _, _. split; [reflexivity|]. split; [reflexivity|].
    unfold progress. fields. repeat split; trivial.
  - eexists _, _. split; [reflexivity|]. split; [reflexivity|].
    unfold speakNext. fields. cbn [negb].
    destruct (paused (engine p)) eqn:Hp.
    + unfold progress. fields. rewrite ?Hp. repeat split; trivial.
    + cbn [length Nat.leb]. unfold progress. fields. rewrite ?Hp.
      repeat split; trivial.
Qed.

Lemma playFromStart_outcome_witness :
  0 < 5 /\
  exists chunks p1,
    chunkText (lit "a") 5 = Some chunks /\
    playFromStart (lit "a") 5 paused_page = Some p1 /\
    queue p1 = chunks /\ currentIndex p1 = 0%nat /\
    timers p1 = timers paused_page /\
    paused (engine p1) = paused (engine paused_page) /\
    progressText p1
      = (if present (progressText paused_page)
         then Some (0%nat, length chunks) else None) /\
    match chunks with
    | [] =>
        isPlaying p1 = false /\ pending (engine p1) = [] /\
        issued (engine p1) = issued (engine paused_page) /\
        statusText p1
          = (if present (statusText paused_page) then Some NothingToPlay
             else None)
    | first :: _ =>
        isPlaying p1 = true /\
        statusText p1
          = (if present (statusText paused_page) then Some Queued else None) /\
        if paused (engine paused_page)
        then pending (engine p1) = [] /\
             issued (engine p1) = issued (engine paused_page)
        else map utext (pending (engine p1)) = [first] /\
             issued (engine p1) = issued (engine paused_page) ++ [first]
    end.
Proof.
  split; [lia|]. apply (playFromStart_outcome (lit "a") 5 paused_page). lia.
Defined.

(** ** The voice of a request *)

Lemma jsstring_eqb_eq (a b : jsstring) : jsstring_eqb a b = true <-> a = b.
Proof.
  unfold jsstring_eqb.
  destruct (list_eq_dec N.eq_dec a b); split; intros H; congruence.
Qed.

(** Looking a voice up by a URI that some voice of the list carries finds a
    voice with that URI. *)
Lemma find_voice_by_uri (vs : list voice) (uri : jsstring) :
  (exists v, In v vs /\ voiceURI v = uri) ->
  exists w, find (fun v => jsstring_eqb (voiceURI v) uri) vs = Some w /\
            In w vs /\ voiceURI w = uri.
Proof.
  intros (v & Hin & Huri).
  destruct (find (fun v => jsstring_eqb (voiceURI v) uri) vs) as [w|] eqn:E.
  - apply find_some in E. destruct E as [Hw Hu].
    apply jsstring_eqb_eq in Hu. eauto.
  - apply (find_none _ _ E) in Hin. cbv beta in Hin.
    apply jsstring_eqb_eq in Huri. congruence.
Qed.

(** X11.  Picking a voice in the selector does not touch the requests that
    are outstanding, and the next request that [speakNext] issues carries a
    voice with the URI that was picked. *)
Theorem voice_change_next_request (uri : jsstring) (p : player) :
  voiceSelect p <> None -> uri <> [] ->
  (exists v, In v (voices p) /\ voiceURI v = uri) ->
  isPlaying p = true -> paused (engine p) = false ->
  (currentIndex p < length (queue p))%nat ->
  engine (onVoiceChange uri p) = engine p /\
  exists w,
    In w (voices p) /\ voiceURI w = uri /\
    pending (engine (speakNext (onVoiceChange uri p)))
    = pending (engine p)
      ++ [mkUtterance (nth (currentIndex p) (queue p) []) (Some w)].
Proof.
  intros Hsel Huri Hv Hpl Hpa Hci.
  destruct (find_voice_by_uri _ _ Hv) as (w & Hfind & Hin & Hw).
  unfold onVoiceChange. destruct (voiceSelect p) as [old|]; [|congruence].
  split; [reflexivity|]. exists w. repeat split; trivial.
  unfold speakNext. fields. rewrite Hpl, Hpa. cbn [negb].
  destruct (Nat.leb_spec (length (queue p)) (currentIndex p)); [lia|]. fields.
  unfold getSelectedVoice. fields.
  destruct uri as [|c uri']; [congruence|]. cbn [or_else truthy].
  now rewrite Hfind.
Qed.

Lemma voice_change_next_request_witness :
  voiceSelect hello_page <> None /\ lit "urn:samantha" <> [] /\
  (exists v, In v (voices hello_page) /\ voiceURI v = lit "urn:samantha") /\
  isPlaying hello_page = true /\ paused (engine hello_page) = false /\
  (currentIndex hello_page < length (queue hello_page))%nat /\
  engine (onVoiceChange (lit "urn:samantha") hello_page)
    = engine hello_page /\
  exists w,
    In w (voices hello_page) /\ voiceURI w = lit "urn:samantha" /\
    pending (engine (speakNext (onVoiceChange (lit "urn:samantha") hello_page)))
    = pending (engine hello_page)
      ++ [mkUtterance (nth (currentIndex hello_page) (queue hello_page) [])
                      (Some w)].
Proof.
  assert (H1 : voiceSelect hello_page <> None) by discriminate.
  assert (H2 : lit "urn:samantha" <> []) by discriminate.
  assert (H3 : exists v, In v (voices hello_page) /\
                         voiceURI v = lit "urn:samantha")
    by (exists samantha_voice; split; [now left | reflexivity]).
  assert (H4 : (currentIndex hello_page < length (queue hello_page))%nat)
    by (simpl; lia).
  split; [exact H1|]. split; [exact H2|]. split; [exact H3|].
  split; [reflexivity|]. split; [reflexivity|]. split; [exact H4|].
  exact (voice_change_next_request (lit "urn:samantha") hello_page
           H1 H2 H3 eq_refl eq_refl H4).
Defined.

(** X12.  After [loadVoices] on a page with the selector and a non-empty
    list of voices with non-empty URIs, [getSelectedVoice] finds a voice of
    the list, and its URI is the default that the policy selected: the next
    request does not go out without a voice. *)
Theorem loaded_default_voice_is_used
    (localeCompare : jsstring -> jsstring -> Z) (available : list voice)
    (p : player) :
  voiceSelect p <> None -> available <> [] ->
  (forall v, In v available -> voiceURI v <> []) ->
  exists w,
    getSelectedVoice (loadVoices localeCompare available p) = Some w /\
    In w available /\
    default_voiceURI localeCompare available = Some (voiceURI w).
Proof.
  intros Hsel Hne Huri.
  pose proof (default_voiceURI_picked localeCompare available Huri) as Hpick.
  pose proof (sort_voices_perm localeCompare available) as Hperm.
  destruct (sort_voices localeCompare available) as [|first rest] eqn:Es.
  { apply Permutation_sym, Permutation_nil in Hperm. congruence. }
  destruct Hpick as (w0 & Hin0 & _ & Hdef).
  destruct (find_voice_by_uri available (voiceURI w0))
    as (w & Hfind & Hin & Hw); [eauto|].
  exists w. split; [|split; [trivial|congruence]].
  unfold loadVoices. cbn [voiceSelect set_voices].
  destruct (voiceSelect p); [|congruence].
  rewrite Hdef. unfold getSelectedVoice. fields.
  specialize (Huri _ Hin0).
  destruct (voiceURI w0) as [|c u] eqn:Eu; [congruence|].
  cbn [or_else truthy]. exact Hfind.
Qed.

Lemma loaded_default_voice_is_used_witness :
  voiceSelect loaded_page <> None /\
  [samantha_voice; google_voice] <> [] /\
  (forall v, In v [samantha_voice; google_voice] -> voiceURI v <> []) /\
  exists w,
    getSelectedVoice
      (loadVoices codeunit_compare [samantha_voice; google_voice] loaded_page)
    = Some w /\
    In w [samantha_voice; google_voice] /\
    default_voiceURI codeunit_compare [samantha_voice; google_voice]
    = Some (voiceURI w).
Proof.
  assert (H1 : voiceSelect loaded_page <> None) by discriminate.
  assert (H2 : [samantha_voice; google_voice] <> []) by discriminate.
  assert (H3 : forall v, In v [samantha_voice; google_voice] ->
                         voiceURI v <> [])
    by (intros v [<- | [<- | []]]; discriminate).
  split; [exact H1|]. split; [exact H2|]. split; [exact H3|].
  exact (loaded_default_voice_is_used codeunit_compare
           [samantha_voice; google_voice] loaded_page H1 H2 H3).
Defined.


(** ** Resuming *)

(** X13.  [resume()] never moves the cursor and never changes the queue.
    While the engine speaks and is not paused it does nothing.  When the
    controller is playing but the engine is neither speaking nor paused (a
    stall) with a segment left, it hands the engine the segment at the
    cursor again, and so does the check that a resume from pause
    schedules. *)
Theorem resume_recovers_stall (p : player) :
  queue (resume p) = queue p /\
  currentIndex (resume p) = currentIndex p /\
  (speaking (engine p) = true -> paused (engine p) = false -> resume p = p) /\
  (isPlaying p = true -> speaking (engine p) = false ->
   paused (engine p) = false ->
   (currentIndex p < length (queue p))%nat ->
   map utext (pending (engine (resume p)))
   = map utext (pending (engine p)) ++ [nth (currentIndex p) (queue p) []] /\
   map utext (pending (engine (resume_nudge p)))
   = map utext (pending (engine p)) ++ [nth (currentIndex p) (queue p) []]).
Proof.
  assert (Hq : forall s, queue (speakNext s) = queue s /\
                         currentIndex (speakNext s) = currentIndex s).
  { intros s. unfold speakNext. destruct (negb _); [auto|].
    destruct (paused _); [auto|]. destruct (_ <=? _)%nat; fields; auto. }
  split; [|split; [|split]].
  - unfold resume. destruct (paused (engine p)); [now fields|].
    destruct (_ && _); trivial. apply Hq.
  - unfold resume. destruct (paused (engine p)); [now fields|].
    destruct (_ && _); trivial. apply Hq.
  - intros Hs Hp. unfold resume. rewrite Hs, Hp.
    now rewrite Bool.andb_false_r.
  - intros Hpl Hs Hp Hci. unfold resume, resume_nudge, speakNext.
    rewrite Hpl, Hs, Hp. cbn [andb negb].
    destruct (Nat.leb_spec (length (queue p)) (currentIndex p)); [lia|].
    fields. now rewrite map_app.
Qed.

Lemma resume_recovers_stall_witness :
  speaking (engine hello_page) = false /\
  paused (engine hello_page) = false /\
  isPlaying hello_page = true /\
  (currentIndex hello_page < length (queue hello_page))%nat /\
  map utext (pending (engine (resume hello_page))) = [lit "Hello."] /\
  map utext (pending (engine (resume_nudge hello_page))) = [lit "Hello."].
Proof.
  assert (H4 : (currentIndex hello_page < length (queue hello_page))%nat)
    by (simpl; lia).
  split; [reflexivity|]. split; [reflexivity|]. split; [reflexivity|].
  split; [exact H4|].
  destruct (resume_recovers_stall hello_page) as (_ & _ & _ & H).
  exact (H eq_refl eq_refl eq_refl H4).
Defined.

(** ** The two revisions, and reloading the voices *)

(** X14.  The chunker of the earlier revision, which pushes every trimmed
    part and filters the empty ones out at the end, and the chunker of the
    later revision, which pushes only the non-empty parts, give the same
    result on every text and every [maxChars], also where they do not
    return. *)
Theorem chunkText_revisions_agree (text : jsstring) (maxChars : Z) :
  chunkText_rev1 text maxChars = chunkText text maxChars.
Proof.
  unfold chunkText_rev1, chunkText, chunkText_fuel.
  destruct (truthy (clean_text text)); cbn [negb]; trivial.
  now rewrite chunk_loop_rev1_same.
Qed.

(** X15.  [loadVoices] forgets what the operator picked: on a page with the
    selector, reloading the voices after a pick gives the same state as
    reloading without the pick, and loading the same list twice is the same
    as loading it once. *)
Theorem loadVoices_resets_pick (localeCompare : jsstring -> jsstring -> Z)
    (available : list voice) (uri : jsstring) (p : player) :
  loadVoices localeCompare available (onVoiceChange uri p)
    = loadVoices localeCompare available p /\
  loadVoices localeCompare available (loadVoices localeCompare available p)
    = loadVoices localeCompare available p.
Proof.
  destruct p as [vs q ci pl sel st pr [v|] e tm];
    unfold loadVoices, onVoiceChange; cbn; split; trivial;
    destruct (default_voiceURI localeCompare available); reflexivity.
Qed.

Lemma is_en_US_english (v : voice) : is_en_US v = true -> is_english v = true.
Proof.
  unfold is_en_US, is_english. destruct (lang v) as [|a [|b l]]; simpl;
    try discriminate.
  - now rewrite andb_false_r.
  - intros H. apply andb_true_iff in H. destruct H as [Ha H].
    apply andb_true_iff in H. destruct H as [Hb _].
    apply N.eqb_eq in Ha, Hb. subst a b. destruct l; reflexivity.
Qed.

Lemma none_such_In (f : voice -> bool) (l : list voice) (v : voice) :
  none_such f l -> In v l -> f v = false.
Proof.
  unfold none_such. rewrite forallb_forall. intros H Hin.
  apply H in Hin. now apply negb_true_iff in Hin.
Qed.

Lemma first_such_holds (f : voice -> bool) (l : list voice) (v : voice) :
  first_such f l v -> f v = true.
Proof. now intros (_ & _ & _ & H & _). Qed.

(** X16.  Whenever a voice with an English tag is available (in any letter
    case), the default voice has an English tag, and whenever a voice
    tagged [en-US] is available, the default voice is tagged [en-US]; this
    holds for every [localeCompare]. *)
Theorem default_voice_is_english
    (localeCompare : jsstring -> jsstring -> Z) (available : list voice) :
  (forall v, In v available -> voiceURI v <> []) ->
  (exists v, In v available /\ is_english v = true) ->
  exists w,
    In w available /\
    default_voiceURI localeCompare available = Some (voiceURI w) /\
    is_english w = true /\
    ((exists v, In v available /\ is_en_US v = true) -> is_en_US w = true).
Proof.
  intros Huri (v & Hin & Hen).
  pose proof (default_voiceURI_picked localeCompare available Huri) as Hpick.
  pose proof (sort_voices_perm localeCompare available) as Hperm.
  assert (HinS : forall x, In x available ->
                           In x (sort_voices localeCompare available))
    by (intros x; apply Permutation_in; exact Hperm).
  destruct (sort_voices localeCompare available) as [|first rest] eqn:Es.
  { now apply HinS in Hin. }
  destruct Hpick as (w & Hw & Hp & Hdef). exists w.
  split; [trivial|]. split; [trivial|].
  destruct Hp as [Ha | [[Na Hb] | [[Nb Hc] | [Nc _]]]].
  - apply first_such_holds in Ha. unfold marked_en_US in Ha.
    apply andb_true_iff in Ha. destruct Ha as [Ha _].
    split; [now apply is_en_US_english|trivial].
  - apply first_such_holds in Hb.
    split; [now apply is_en_US_english|trivial].
  - apply first_such_holds in Hc. split; trivial.
    intros (u & Hu & Hus). apply HinS in Hu.
    rewrite (none_such_In _ _ _ Nb Hu) in Hus. discriminate.
  - apply HinS in Hin. rewrite (none_such_In _ _ _ Nc Hin) in Hen.
    discriminate.
Qed.

Lemma default_voice_is_english_witness :
  (forall v, In v [samantha_voice; google_voice] -> voiceURI v <> []) /\
  (exists v, In v [samantha_voice; google_voice] /\ is_english v = true) /\
  exists w,
    In w [samantha_voice; google_voice] /\
    default_voiceURI codeunit_compare [samantha_voice; google_voice]
    = Some (voiceURI w) /\
    is_english w = true /\
    ((exists v, In v [samantha_voice; google_voice] /\ is_en_US v = true) ->
     is_en_US w = true).
Proof.
  assert (H1 : forall v, In v [samantha_voice; google_voice] ->
                         voiceURI v <> [])
    by (intros v [<- | [<- | []]]; discriminate).
  assert (H2 : exists v, In v [samantha_voice; google_voice] /\
                         is_english v = true)
    by (exists samantha_voice; split; [now left | reflexivity]).
  split; [exact H1|]. split; [exact H2|].
  exact (default_voice_is_english codeunit_compare
           [samantha_voice; google_voice] H1 H2).
Defined.
